(** * faadibruno.py: partitions, Faà di Bruno's formula, Taylor inversion

    A shallow embedding of [faadibruno.py].  Python generators are modelled
    by the list of the values they yield, Python integers by [Z] (counts and
    loop indices that are non-negative by construction by [nat]), and the
    numbers the arithmetic runs on by the normalised rationals [Qc], which
    is what the code computes when it is fed [fractions.Fraction] values.
    Exceptions are modelled by an error monad. *)

From Stdlib Require Import List ZArith QArith Qcanon Lia Permutation Sorted Bool Arith Field.
Import ListNotations.

Open Scope Z_scope.

(** ** Python primitives *)

Module Py.

(** The exceptions the code can raise. *)
Inductive exn : Set :=
| IndexError
| ZeroDivisionError.

Inductive result (A : Type) : Type :=
| Ok (a : A)
| Raise (e : exn).
Arguments Ok {A} a.
Arguments Raise {A} e.

Definition bind {A B : Type} (m : result A) (k : A -> result B) : result B :=
  match m with
  | Ok a => k a
  | Raise e => Raise e
  end.

(** [for x in l: acc = body(acc, x)], stopping at the first exception. *)
Fixpoint foldM {A B : Type} (body : B -> A -> result B) (l : list A) (acc : B)
  : result B :=
  match l with
  | [] => Ok acc
  | x :: l' => bind (body acc x) (foldM body l')
  end.

(** [range(a, b)]. *)
Definition range (a b : Z) : list Z :=
  map (fun k => a + Z.of_nat k) (seq 0 (Z.to_nat (b - a))).

(** [l[i]], with Python's negative indices. *)
Definition getitem {A : Type} (l : list A) (i : Z) : result A :=
  let j := if i <? 0 then i + Z.of_nat (length l) else i in
  if j <? 0 then Raise IndexError
  else match nth_error l (Z.to_nat j) with
       | Some a => Ok a
       | None => Raise IndexError
       end.

(** [[0]*k]: the empty list when [k] is not positive. *)
Definition zeros (k : Z) : list nat := repeat 0%nat (Z.to_nat k).

(** [p[k] += 1] on a list of counts, for an index [k >= 0]. *)
Fixpoint incr (k : nat) (p : list nat) : list nat :=
  match p with
  | [] => []
  | c :: p' =>
      match k with
      | O => S c :: p'
      | S k' => c :: incr k' p'
      end
  end.

(** [enumerate(l)], from a first index. *)
Fixpoint enumerate_from {A : Type} (k : nat) (l : list A) : list (nat * A) :=
  match l with
  | [] => []
  | a :: l' => (k, a) :: enumerate_from (S k) l'
  end.
Definition enumerate {A : Type} (l : list A) : list (nat * A) := enumerate_from 0 l.

(** An integer used as a number. *)
Definition num (z : Z) : Qc := Q2Qc (inject_Z z).

(** [math.factorial] on a non-negative argument. *)
Fixpoint fac (n : nat) : Z :=
  match n with
  | O => 1
  | S k => Z.of_nat n * fac k
  end.

(** [a / b]: true division. *)
Definition truediv (a b : Qc) : result Qc :=
  if Qc_eq_bool b 0%Qc then Raise ZeroDivisionError else Ok (a / b)%Qc.

End Py.
Import Py.

Notation "x <- m ;; k" := (bind m (fun x => k))
  (at level 61, m at next level, right associativity).

(** ** The generators *)

(** [partitions(n, I)].  The recursion of the source is on [n - i] for
    [i] in [range(I, n//2 + 1)].  With [I >= 1], which is the default and
    how every call of the file starts, [n] decreases, and a depth of
    [Z.to_nat n] is enough: [partitions_eq] below is the equation of the
    source.  With [I <= 0] the Python recursion does not end; the model
    says nothing of that case. *)
Fixpoint partitions_rec (fuel : nat) (n I : Z) : list (list Z) :=
  [n] ::
  match fuel with
  | O => []
  | S fuel' =>
      flat_map (fun i => map (cons i) (partitions_rec fuel' (n - i) i))
               (range I (n / 2 + 1))
  end.

Definition partitions (n I : Z) : list (list Z) := partitions_rec (Z.to_nat n) n I.

(** [partcounts(n, I)].  Every list is created at a [yield [0]*(n-1) + [1]]
    and handed up the chain of generators, each of which extends and updates
    it once before yielding it again; no list is yielded twice, so the
    in-place updates are modelled on values.  The index [i - 1] of
    [p[i-1] += 1] is within the extended list ([incr_in_range]). *)
Fixpoint partcounts_rec (fuel : nat) (n I : Z) : list (list nat) :=
  (zeros (n - 1) ++ [1%nat]) ::
  match fuel with
  | O => []
  | S fuel' =>
      flat_map (fun i => map (fun p => incr (Z.to_nat (i - 1)) (p ++ zeros i))
                             (partcounts_rec fuel' (n - i) i))
               (range I (n / 2 + 1))
  end.

Definition partcounts (n I : Z) : list (list nat) := partcounts_rec (Z.to_nat n) n I.

(** [tayparts(n)]: the loop of [partcounts(n)] without its first [yield],
    and with [i - 1] zeros appended instead of [i]. *)
Definition tayparts (n : Z) : list (list nat) :=
  flat_map (fun i => map (fun p => incr (Z.to_nat (i - 1)) (p ++ zeros (i - 1)))
                         (partcounts (n - i) i))
           (range 1 (1 + n / 2)).

(** ** Faà di Bruno's formula and the inversion *)

(** [sum(p)]. *)
Definition sum (p : list nat) : nat := fold_left Nat.add p 0%nat.

(** One turn of the inner loop of [faadibruno] and [_taylor_inverse]:
    [P *= g[i]**p[i] / fac(p[i]) / fac(1+i)**p[i]]. *)
Definition factor_step (g : list Qc) (P : Qc) (ip : nat * nat) : result Qc :=
  let '(i, pi) := ip in
  gi <- getitem g (Z.of_nat i) ;;
  q1 <- truediv (gi ^ pi)%Qc (num (fac pi)) ;;
  q2 <- truediv q1 (num (fac (1 + i) ^ Z.of_nat pi)) ;;
  Ok (P * q2)%Qc.

(** The body shared by [faadibruno] and [_taylor_inverse]:
[[
    P = fac(n) * f[sum(p)-1]
    for i in range(len(p)):
        P *= g[i]**p[i] / fac(p[i]) / fac(1+i)**p[i]
]] *)
Definition summand (f g : list Qc) (n : nat) (p : list nat) : result Qc :=
  fs <- getitem f (Z.of_nat (sum p) - 1) ;;
  foldM (factor_step g) (enumerate p) (num (fac n) * fs)%Qc.

(** [S = 0; for p in parts: S += summand]. *)
Definition summation (f g : list Qc) (n : nat) (parts : list (list nat)) : result Qc :=
  foldM (fun s p => P <- summand f g n p ;; Ok (s + P)%Qc) parts 0%Qc.

(** [faadibruno(f, g)], as the list of the values it yields. *)
Definition faadibruno (f g : list Qc) : result (list Qc) :=
  foldM (fun out n =>
           s <- summation f g n (partcounts (Z.of_nat n) 1) ;;
           Ok (out ++ [s]))
        (seq 1 (length f)) [].

(** One turn of the loop of [_taylor_inverse], on [g]:
[[
    S = 0
    for p in tayparts(n): ...
    g.append(-S/f[0])
]] *)
Definition inverse_step (f g : list Qc) (n : nat) : result (list Qc) :=
  s <- summation f g n (tayparts (Z.of_nat n)) ;;
  f0 <- getitem f 0 ;;
  gn <- truediv (- s)%Qc f0 ;;
  Ok (g ++ [gn]).

(** [_taylor_inverse(f)]. *)
Definition _taylor_inverse (f : list Qc) : result (list Qc) :=
  f0 <- getitem f 0 ;;
  g0 <- truediv 1%Qc f0 ;;
  foldM (inverse_step f) (seq 2 (length f - 1)) [g0].

(** ** Recentering and evaluation *)

(** One turn of the inner loop of [taylor_recenter], on the pair [(S, P)]:
    [S += t[i-1]*P; P *= i*(x-c)/(i-k)]. *)
Definition recenter_step (x c : Qc) (t : list Qc) (k : nat) (SP : Qc * Qc) (i : nat)
  : result (Qc * Qc) :=
  let '(s, P) := SP in
  ti <- getitem t (Z.of_nat i - 1) ;;
  q <- truediv (num (Z.of_nat i) * (x - c))%Qc (num (Z.of_nat i - Z.of_nat k)) ;;
  Ok ((s + ti * P)%Qc, (P * q)%Qc).

(** The value [taylor_recenter] yields for [k]:
[[
    S=0; P=1
    for i in range(k+1, n): ...
    S+=t[-1]*P
]] *)
Definition recenter_value (x c : Qc) (t : list Qc) (k : nat) : result Qc :=
  SP <- foldM (recenter_step x c t k) (seq (k + 1) (length t - (k + 1))) (0%Qc, 1%Qc) ;;
  tlast <- getitem t (-1) ;;
  Ok (fst SP + tlast * snd SP)%Qc.

(** [taylor_recenter(x, c, t)], as the list of the values it yields. *)
Definition taylor_recenter (x c : Qc) (t : list Qc) : result (list Qc) :=
  foldM (fun out k => s <- recenter_value x c t k ;; Ok (out ++ [s]))
        (seq 0 (length t)) [].

(** [[a*fac(i) for i, a in enumerate(t[1:])]]. *)
Definition to_derivs (t : list Qc) : list Qc :=
  map (fun '(i, a) => (a * num (fac i))%Qc) (enumerate (tl t)).

(** [a/fac(i)] for one pair [(i, a)] of [enumerate(g)]. *)
Definition coeff_of (ia : nat * Qc) : result Qc :=
  let '(i, a) := ia in truediv a (num (fac i)).

(** [[0]+[a/fac(i) for i, a in enumerate(g)]]. *)
Definition to_coeffs (g : list Qc) : result (list Qc) :=
  G <- foldM (fun G ia => q <- coeff_of ia ;; Ok (G ++ [q])) (enumerate g) [] ;;
  Ok (0%Qc :: G).

(** [taylor_inverse(t)]. *)
Definition taylor_inverse (t : list Qc) : result (list Qc) :=
  let derivs := to_derivs t in
  g <- _taylor_inverse derivs ;;
  G <- to_coeffs g ;;
  d0 <- getitem derivs 0 ;;
  taylor_recenter 0%Qc d0 G.

(** [taylor(x, c, t)]. *)
Definition taylor (x c : Qc) (t : list Qc) : Qc :=
  fold_left (fun s i => (s * (x - c) + i)%Qc) (rev t) 0%Qc.

(** A list of integers as a list of numbers. *)
Definition qs (l : list Z) : list Qc := map num l.


(** ** Specification-level notions *)

(** The sum of the parts of a partition. *)
Definition total (l : list Z) : Z := fold_right Z.add 0 l.

(** A partition of [n] in canonical form: positive parts, in non-decreasing
    order, that sum to [n]. *)
Definition is_partition (n : Z) (l : list Z) : Prop :=
  Forall (fun x => 1 <= x) l /\ Sorted Z.le l /\ total l = n.

(** The weighted sum [Σ (i+1)·p[i]] of a count vector, from a first part
    size. *)
Fixpoint weight_from (k : nat) (p : list nat) : nat :=
  match p with
  | [] => 0
  | c :: p' => k * c + weight_from (S k) p'
  end.
Definition weight (p : list nat) : nat := weight_from 1 p.

(** The partition-count vectors of [n]: length [n], weighted sum [n]. *)
Definition is_partcount (n : nat) (p : list nat) : Prop :=
  length p = n /\ weight p = n.

(** The partition a count vector stands for: [p[i]] parts of size [i+1]. *)
Fixpoint expand_from (k : Z) (p : list nat) : list Z :=
  match p with
  | [] => []
  | c :: p' => repeat k c ++ expand_from (k + 1) p'
  end.
Definition expand (p : list nat) : list Z := expand_from 1 p.

(** The number of partitions of [n] into parts of size at least [k], by the
    textbook recurrence: a partition either has no part [k], or has one and
    loses it. *)
Fixpoint parts_at_least (fuel k n : nat) : nat :=
  match fuel with
  | O => 0
  | S fuel' =>
      if (n <? k)%nat then 0%nat
      else if (n =? k)%nat then 1%nat
      else (parts_at_least fuel' (S k) n + parts_at_least fuel' k (n - k))%nat
  end.

(** The partition function p(n). *)
Definition partition_number (n : nat) : nat := parts_at_least (2 * n) 1 n.

(** The binomial coefficient, by Pascal's rule. *)
Fixpoint choose (n k : nat) : Z :=
  match n, k with
  | _, O => 1
  | O, S _ => 0
  | S n', S k' => choose n' k' + choose n' k
  end.

(** [Σ] over a list of numbers. *)
Definition qsum (l : list Qc) : Qc := fold_right Qcplus 0%Qc l.

(** [Π] over a list of numbers. *)
Definition qprod (l : list Qc) : Qc := fold_right Qcmult 1%Qc l.

(** The factor of index [i] in a term of Faà di Bruno's formula:
    [g[i]^p[i] / p[i]! / (i+1)!^p[i]]. *)
Definition fdb_factor (g : list Qc) (p : list nat) (i : nat) : Qc :=
  (nth i g 0 ^ nth i p 0%nat / num (fac (nth i p 0%nat))
   / num (fac (i + 1)) ^ nth i p 0%nat)%Qc.

(** One term of Faà di Bruno's formula in multiplicity form:
    [n!·f[Σp−1]·Π_i (g[i]^p[i] / p[i]! / (i+1)!^p[i])]. *)
Definition fdb_term (f g : list Qc) (n : nat) (p : list nat) : Qc :=
  (num (fac n) * nth (sum p - 1) f 0 * qprod (map (fdb_factor g p) (seq 0 (length p))))%Qc.

(** The sum of the terms of the vectors [partcounts(n)] yields. *)
Definition faadibruno_value (f g : list Qc) (n : nat) : Qc :=
  qsum (map (fdb_term f g n) (partcounts (Z.of_nat n) 1)).

(** What [partitions n I] yields, from a smallest part [I] on. *)
Definition is_partition_from (n I : Z) (l : list Z) : Prop :=
  l <> [] /\ Forall (fun x => I <= x) l /\ StronglySorted Z.le l /\ total l = n.

(** Truncated power series as coefficient lists: sum, product and
    composition [t(F(x))], by Horner's rule. *)
Fixpoint series_add (a b : list Qc) : list Qc :=
  match a, b with
  | [], _ => b
  | _, [] => a
  | x :: a', y :: b' => (x + y)%Qc :: series_add a' b'
  end.

Fixpoint series_mul (a b : list Qc) : list Qc :=
  match a with
  | [] => []
  | x :: a' => series_add (map (Qcmult x) b) (0%Qc :: series_mul a' b)
  end.

Definition series_compose (t F : list Qc) : list Qc :=
  fold_right (fun c acc => series_add [c] (series_mul F acc)) [] t.

(** [[1/fac(n) for n in range(N)]], the series of the exponential. *)
Definition exp_series (N : nat) : list Qc :=
  map (fun n => (1 / num (fac n))%Qc) (seq 0 N).

(** The derivative sequence of the identity up to order [length g]. *)
Definition composes_to_identity (f g : list Qc) : Prop :=
  forall n, (1 <= n <= length g)%nat ->
            faadibruno_value f g n = if (n =? 1)%nat then 1%Qc else 0%Qc.

(** The [k]th coefficient of the Taylor shift:
    [Σ_{j=k}^{n−1} C(j,k)·t[j]·(x−c)^(j−k)]. *)
Definition shift_coeff (x c : Qc) (t : list Qc) (k : nat) : Qc :=
  qsum (map (fun j => (num (choose j k) * nth j t 0 * (x - c) ^ (j - k))%Qc)
            (seq k (length t - k))).

(** [it_choose(n, k)], as the list of the values it yields:
[[
    f = 1
    for i in range(k+1, n+1):
        yield f
        f *= i
        f //= (i - k)
    yield f
]]
    The divisor [i - k] is positive, where [//] is [Z.div]. *)
Definition it_choose_step (k : Z) (st : list Z * Z) (i : Z) : list Z * Z :=
  let '(out, f) := st in (out ++ [f], f * i / (i - k)).

Definition it_choose (n k : Z) : list Z :=
  let '(out, f) := fold_left (it_choose_step k) (range (k + 1) (n + 1)) ([], 1) in
  out ++ [f].

(** The entrywise combination [a·u + b·v] of two sequences. *)
Definition lincomb (a b : Qc) (u v : list Qc) : list Qc :=
  map (fun uv => (a * fst uv + b * snd uv)%Qc) (combine u v).

(** The Taylor shift by [d] of the first [n] coefficients of a sequence
    given as a function, and the sequence with one more leading
    coefficient. *)
Definition fshift (d : Qc) (tau : nat -> Qc) (n k : nat) : Qc :=
  qsum (map (fun j => (num (choose j k) * tau j * d ^ (j - k))%Qc) (seq k (n - k))).

Definition fcons (u : Qc) (tau : nat -> Qc) (j : nat) : Qc :=
  match j with
  | O => u
  | S j' => tau j'
  end.

(** ** Python's [range] *)

Lemma in_range a b i : In i (range a b) <-> a <= i < b.
Proof.
  unfold range. rewrite in_map_iff. split.
  - intros (k & <- & Hk%in_seq). lia.
  - intros H. exists (Z.to_nat (i - a)). split; [lia|]. apply in_seq. lia.
Qed.

Lemma range_nil a b : b <= a -> range a b = [].
Proof. intros H. unfold range. replace (Z.to_nat (b - a)) with 0%nat by lia. reflexivity. Qed.

Lemma range_cons a b : a < b -> range a b = a :: range (a + 1) b.
Proof.
  intros H. unfold range.
  replace (Z.to_nat (b - a)) with (S (Z.to_nat (b - (a + 1)))) by lia.
  cbn [seq map]. f_equal; [lia|].
  rewrite <- seq_shift, map_map. apply map_ext. intros k. lia.
Qed.

Lemma NoDup_range a b : NoDup (range a b).
Proof.
  unfold range. apply NoDup_map_NoDup_ForallPairs; [|apply seq_NoDup].
  intros x y _ _ H. lia.
Qed.

Lemma flat_map_ext_in {A B : Type} (f g : A -> list B) (l : list A) :
  (forall a, In a l -> f a = g a) -> flat_map f l = flat_map g l.
Proof.
  induction l as [|a l IH]; intros H; cbn; [reflexivity|].
  rewrite (H a (or_introl eq_refl)), IH; [reflexivity|].
  intros b Hb. apply H. now right.
Qed.

(** ** The generators follow the recursion of the source *)

Lemma partitions_rec_fuel fuel1 : forall fuel2 n I,
  1 <= I -> (Z.to_nat n <= fuel1)%nat -> (Z.to_nat n <= fuel2)%nat ->
  partitions_rec fuel1 n I = partitions_rec fuel2 n I.
Proof.
  induction fuel1 as [|fuel1 IH]; intros [|fuel2] n I HI H1 H2; cbn [partitions_rec];
    try reflexivity.
  - rewrite range_nil; [reflexivity|]. assert (n / 2 <= 0) by (apply Z.div_le_upper_bound; lia). lia.
  - rewrite range_nil; [reflexivity|]. assert (n / 2 <= 0) by (apply Z.div_le_upper_bound; lia). lia.
  - f_equal. apply flat_map_ext_in. intros i Hi%in_range. f_equal.
    assert (2 * (n / 2) <= n) by (apply Z.mul_div_le; lia).
    apply IH; lia.
Qed.

(** The equation of the source: [yield (n,)], then for each [i] of
    [range(I, n//2 + 1)] every partition of [n - i] from [i], with [i] in
    front. *)
Lemma partitions_eq n I :
  1 <= I ->
  partitions n I =
  [n] :: flat_map (fun i => map (cons i) (partitions (n - i) i)) (range I (n / 2 + 1)).
Proof.
  intros HI. unfold partitions. destruct (Z.to_nat n) as [|fuel] eqn:E; cbn [partitions_rec].
  - rewrite range_nil; [reflexivity|]. assert (n / 2 <= 0) by (apply Z.div_le_upper_bound; lia). lia.
  - f_equal. apply flat_map_ext_in. intros i Hi%in_range. f_equal.
    assert (2 * (n / 2) <= n) by (apply Z.mul_div_le; lia).
    apply partitions_rec_fuel; lia.
Qed.

Lemma partcounts_rec_fuel fuel1 : forall fuel2 n I,
  1 <= I -> (Z.to_nat n <= fuel1)%nat -> (Z.to_nat n <= fuel2)%nat ->
  partcounts_rec fuel1 n I = partcounts_rec fuel2 n I.
Proof.
  induction fuel1 as [|fuel1 IH]; intros [|fuel2] n I HI H1 H2; cbn [partcounts_rec];
    try reflexivity.
  - rewrite range_nil; [reflexivity|]. assert (n / 2 <= 0) by (apply Z.div_le_upper_bound; lia). lia.
  - rewrite range_nil; [reflexivity|]. assert (n / 2 <= 0) by (apply Z.div_le_upper_bound; lia). lia.
  - f_equal. apply flat_map_ext_in. intros i Hi%in_range. f_equal.
    assert (2 * (n / 2) <= n) by (apply Z.mul_div_le; lia).
    apply IH; lia.
Qed.

Lemma partcounts_eq n I :
  1 <= I ->
  partcounts n I =
  (zeros (n - 1) ++ [1%nat]) ::
  flat_map (fun i => map (fun p => incr (Z.to_nat (i - 1)) (p ++ zeros i))
                         (partcounts (n - i) i))
           (range I (n / 2 + 1)).
Proof.
  intros HI. unfold partcounts. destruct (Z.to_nat n) as [|fuel] eqn:E; cbn [partcounts_rec].
  - rewrite range_nil; [reflexivity|]. assert (n / 2 <= 0) by (apply Z.div_le_upper_bound; lia). lia.
  - f_equal. apply flat_map_ext_in. intros i Hi%in_range. f_equal.
    assert (2 * (n / 2) <= n) by (apply Z.mul_div_le; lia).
    apply partcounts_rec_fuel; lia.
Qed.

(** ** [partitions] enumerates the partitions *)

Ltac halves n :=
  pose proof (Z.mul_div_le n 2 ltac:(lia));
  pose proof (Z.mul_succ_div_gt n 2 ltac:(lia)).

Lemma total_cons a l : total (a :: l) = a + total l.
Proof. reflexivity. Qed.

Lemma total_app l1 l2 : total (l1 ++ l2) = total l1 + total l2.
Proof.
  induction l1 as [|a l1 IH]; [reflexivity|].
  rewrite <- app_comm_cons, !total_cons, IH. lia.
Qed.

Lemma total_lower_bound k l : Forall (fun x => k <= x) l -> l <> [] -> 0 <= k -> k <= total l.
Proof.
  intros H Hne Hk. destruct H as [|x l Hx Hl]; [congruence|]. rewrite total_cons.
  assert (0 <= total l); [|lia].
  clear Hne Hx. induction Hl as [|y l Hy _ IH]; [cbn; lia|]. rewrite total_cons. lia.
Qed.

Lemma partitions_sound m : forall n I l,
  (Z.to_nat n <= m)%nat -> 1 <= I <= n ->
  In l (partitions n I) -> is_partition_from n I l.
Proof.
  induction m as [|m IH]; intros n I l Hm HI; [lia|].
  rewrite partitions_eq by lia. intros [<- | Hin].
  - repeat split; [discriminate| repeat constructor; lia | repeat constructor | cbn; lia].
  - apply in_flat_map in Hin as (i & Hi%in_range & Hl).
    apply in_map_iff in Hl as (p & <- & Hp). halves n.
    apply IH in Hp as (Hne & Hall & Hsort & Htot); [|lia|lia].
    repeat split.
    + discriminate.
    + constructor; [lia|]. eapply Forall_impl; [|exact Hall]. cbn; intros; lia.
    + constructor; assumption.
    + rewrite total_cons. lia.
Qed.

Lemma partitions_complete m : forall n I l,
  (Z.to_nat n <= m)%nat -> 1 <= I <= n ->
  is_partition_from n I l -> In l (partitions n I).
Proof.
  induction m as [|m IH]; intros n I l Hm HI (Hne & Hall & Hsort & Htot); [lia|].
  rewrite partitions_eq by lia.
  destruct l as [|x [|y r]]; [congruence| |].
  - left. rewrite total_cons in Htot. cbn in Htot. f_equal. lia.
  - right. apply in_flat_map. exists x.
    apply StronglySorted_inv in Hsort as [Hsort Hx].
    apply Forall_inv in Hall as HIx.
    assert (Hrest : x <= total (y :: r)) by (apply total_lower_bound; [assumption|discriminate|lia]).
    rewrite total_cons in Htot.
    halves n. split.
    + apply in_range. lia.
    + apply in_map. apply (IH (n - x) x); [lia|lia|].
      repeat split; [discriminate|assumption|assumption|lia].
Qed.

Lemma partitions_nonempty n I l : 1 <= I -> In l (partitions n I) -> l <> [].
Proof.
  intros HI. rewrite partitions_eq by lia. intros [<- | Hin]; [discriminate|].
  apply in_flat_map in Hin as (i & _ & Hl).
  apply in_map_iff in Hl as (p & <- & _). discriminate.
Qed.

Lemma NoDup_flat_map {A B : Type} (f : A -> list B) (l : list A) :
  NoDup l ->
  (forall a, In a l -> NoDup (f a)) ->
  (forall a b x, In a l -> In b l -> In x (f a) -> In x (f b) -> a = b) ->
  NoDup (flat_map f l).
Proof.
  induction 1 as [|a l Ha Hl IH]; intros Hf Hdisj; cbn; [constructor|].
  apply NoDup_app.
  - apply Hf. now left.
  - apply IH.
    + intros b Hb. apply Hf. now right.
    + intros b c x Hb Hc. apply Hdisj; now right.
  - intros x Hx Hx'. apply in_flat_map in Hx' as (b & Hb & Hxb).
    assert (a = b) by (apply (Hdisj a b x); [now left|now right|assumption|assumption]).
    subst b. contradiction.
Qed.

Lemma NoDup_map_cons {A : Type} (a : A) (L : list (list A)) :
  NoDup L -> NoDup (map (cons a) L).
Proof.
  intros H. apply NoDup_map_NoDup_ForallPairs; [|assumption].
  intros x y _ _ E. now inversion E.
Qed.

Lemma partitions_NoDup m : forall n I,
  (Z.to_nat n <= m)%nat -> 1 <= I -> NoDup (partitions n I).
Proof.
  induction m as [|m IH]; intros n I Hm HI; rewrite partitions_eq by lia.
  - rewrite range_nil; [repeat constructor; intros []|]. halves n. lia.
  - constructor.
    + intros Hin. apply in_flat_map in Hin as (i & Hi%in_range & Hl).
      apply in_map_iff in Hl as (p & E & Hp). inversion E; subst.
      apply partitions_nonempty in Hp; [congruence|lia].
    + apply NoDup_flat_map.
      * apply NoDup_range.
      * intros i Hi%in_range. apply NoDup_map_cons. halves n. apply IH; lia.
      * intros a b x _ _ Ha Hb.
        apply in_map_iff in Ha as (p & <- & _). apply in_map_iff in Hb as (q & E & _).
        now inversion E.
Qed.

(** The recurrence of the textbook count, read off the generator. *)
Lemma partitions_length_step n I :
  1 <= I -> 2 * I <= n ->
  length (partitions n I) =
  (length (partitions n (I + 1)) + length (partitions (n - I) I))%nat.
Proof.
  intros HI Hn. rewrite (partitions_eq n I), (partitions_eq n (I + 1)) by lia.
  halves n. rewrite (range_cons I) by lia. cbn [flat_map length].
  rewrite length_app, length_map. lia.
Qed.

Lemma partitions_length_one n I : 1 <= I -> n < 2 * I -> length (partitions n I) = 1%nat.
Proof.
  intros HI Hn. rewrite partitions_eq by lia. halves n. rewrite range_nil by lia. reflexivity.
Qed.

Lemma parts_at_least_partitions fuel : forall k n,
  (1 <= k <= n)%nat -> (n + (n - k) < fuel)%nat ->
  parts_at_least fuel k n = length (partitions (Z.of_nat n) (Z.of_nat k)).
Proof.
  induction fuel as [|fuel IH]; intros k n Hk Hf; [lia|].
  cbn [parts_at_least].
  destruct (Nat.ltb_spec n k) as [?|_]; [lia|].
  destruct (Nat.eqb_spec n k) as [->|Hne].
  - symmetry. apply partitions_length_one; lia.
  - rewrite (IH (S k) n) by lia.
    replace (Z.of_nat (S k)) with (Z.of_nat k + 1) by lia.
    destruct (Nat.le_gt_cases k (n - k)) as [Hle|Hgt].
    + rewrite (IH k (n - k)%nat) by lia.
      replace (Z.of_nat (n - k)) with (Z.of_nat n - Z.of_nat k) by lia.
      symmetry. apply partitions_length_step; lia.
    + destruct fuel as [|fuel]; [lia|]. cbn [parts_at_least].
      destruct (Nat.ltb_spec (n - k) k) as [_|?]; [|lia].
      rewrite !partitions_length_one by lia. reflexivity.
Qed.

(** ** [partcounts] enumerates them as count vectors *)

Lemma length_zeros k : length (zeros k) = Z.to_nat k.
Proof. apply repeat_length. Qed.

Lemma length_incr k p : length (incr k p) = length p.
Proof. revert k. induction p as [|c p IH]; intros [|k]; cbn; auto. Qed.

Lemma nth_incr_other k j p : j <> k -> nth j (incr k p) 0%nat = nth j p 0%nat.
Proof.
  revert k j. induction p as [|c p IH]; intros [|k] [|j] H; cbn; auto; try congruence.
Qed.

Lemma partcounts_length m : forall n I p,
  (Z.to_nat n <= m)%nat -> 1 <= I <= n ->
  In p (partcounts n I) -> length p = Z.to_nat n.
Proof.
  induction m as [|m IH]; intros n I p Hm HI; [lia|].
  rewrite partcounts_eq by lia. intros [<- | Hin].
  - rewrite length_app, length_zeros. cbn. lia.
  - apply in_flat_map in Hin as (i & Hi%in_range & Hp).
    apply in_map_iff in Hp as (q & <- & Hq). halves n.
    apply IH in Hq; [|lia|lia].
    rewrite length_incr, length_app, length_zeros. lia.
Qed.

(** [p[i-1] += 1] never indexes out of range. *)
Lemma incr_in_range n I i p :
  1 <= I -> In i (range I (n / 2 + 1)) -> In p (partcounts (n - i) i) ->
  (Z.to_nat (i - 1) < length (p ++ zeros i))%nat /\
  (Z.to_nat (i - 1) < length (p ++ zeros (i - 1)))%nat.
Proof.
  intros HI Hi%in_range Hp. halves n.
  apply (partcounts_length (Z.to_nat (n - i))) in Hp; [|lia|lia].
  rewrite !length_app, !length_zeros. lia.
Qed.

(** A vector yielded from [I] on counts no part smaller than [I]. *)
Lemma partcounts_low m : forall n I p j,
  (Z.to_nat n <= m)%nat -> 1 <= I <= n ->
  In p (partcounts n I) -> (j < Z.to_nat (I - 1))%nat -> nth j p 0%nat = 0%nat.
Proof.
  induction m as [|m IH]; intros n I p j Hm HI; [lia|].
  rewrite partcounts_eq by lia. intros [<- | Hin] Hj.
  - rewrite app_nth1 by (rewrite length_zeros; lia). apply nth_repeat.
  - apply in_flat_map in Hin as (i & Hi%in_range & Hp).
    apply in_map_iff in Hp as (q & <- & Hq). halves n.
    rewrite nth_incr_other by lia.
    pose proof (partcounts_length m (n - i) i q ltac:(lia) ltac:(lia) Hq) as Hlen.
    rewrite app_nth1 by lia.
    apply (IH (n - i) i); [lia|lia|assumption|lia].
Qed.

Lemma expand_from_zeros k j r :
  expand_from k (repeat 0%nat j ++ r) = expand_from (k + Z.of_nat j) r.
Proof.
  revert k. induction j as [|j IH]; intros k; cbn [repeat app expand_from].
  - f_equal. lia.
  - rewrite IH. f_equal. lia.
Qed.

Lemma expand_from_app_zeros k p j : expand_from k (p ++ repeat 0%nat j) = expand_from k p.
Proof.
  revert k. induction p as [|c p IH]; intros k; cbn [app expand_from].
  - induction j as [|j IHj] in k |- *; cbn [repeat expand_from app]; auto.
  - now rewrite IH.
Qed.

Lemma expand_from_incr j : forall k p,
  (j < length p)%nat -> (forall j', (j' < j)%nat -> nth j' p 0%nat = 0%nat) ->
  expand_from k (incr j p) = (k + Z.of_nat j) :: expand_from k p.
Proof.
  induction j as [|j IH]; intros k [|c p] Hlen Hlow; cbn in Hlen; try lia.
  - cbn [incr expand_from repeat app]. f_equal. lia.
  - assert (c = 0%nat) as -> by (apply (Hlow 0%nat); lia).
    cbn [incr expand_from repeat app]. rewrite IH.
    + f_equal. lia.
    + lia.
    + intros j' Hj'. apply (Hlow (S j')). lia.
Qed.

Lemma map_flat_map {A B C : Type} (h : B -> C) (f : A -> list B) (l : list A) :
  map h (flat_map f l) = flat_map (fun a => map h (f a)) l.
Proof. induction l as [|a l IH]; cbn; [reflexivity|]. now rewrite map_app, IH. Qed.

(** The [k]th vector of [partcounts] counts the parts of the [k]th partition
    of [partitions]. *)
Lemma expand_partcounts m : forall n I,
  (Z.to_nat n <= m)%nat -> 1 <= I <= n ->
  map expand (partcounts n I) = partitions n I.
Proof.
  induction m as [|m IH]; intros n I Hm HI; [lia|].
  rewrite partcounts_eq, partitions_eq by lia. cbn [map]. f_equal.
  - unfold expand, zeros. rewrite expand_from_zeros. cbn [expand_from repeat app]. f_equal. lia.
  - rewrite map_flat_map. apply flat_map_ext_in. intros i Hi%in_range. halves n.
    rewrite <- (IH (n - i) i) by lia. rewrite !map_map. apply map_ext_in.
    intros q Hq.
    pose proof (partcounts_length m (n - i) i q ltac:(lia) ltac:(lia) Hq) as Hlen.
    unfold expand. rewrite expand_from_incr.
    + unfold zeros. rewrite expand_from_app_zeros. f_equal. lia.
    + rewrite length_app, length_zeros. lia.
    + intros j' Hj'. rewrite app_nth1 by lia.
      apply (partcounts_low m (n - i) i); [lia|lia|assumption|lia].
Qed.

Lemma total_repeat k c : total (repeat k c) = k * Z.of_nat c.
Proof. induction c as [|c IH]; [cbn; lia|]. cbn [repeat]. rewrite total_cons, IH. lia. Qed.

Lemma total_expand_from k p :
  total (expand_from (Z.of_nat k) p) = Z.of_nat (weight_from k p).
Proof.
  revert k. induction p as [|c p IH]; intros k; [reflexivity|].
  cbn [expand_from weight_from]. rewrite total_app, total_repeat.
  replace (Z.of_nat k + 1) with (Z.of_nat (S k)) by lia. rewrite IH. lia.
Qed.

Lemma expand_from_lower k p : Forall (fun x => k <= x) (expand_from k p).
Proof.
  revert k. induction p as [|c p IH]; intros k; cbn [expand_from]; [constructor|].
  apply Forall_app. split.
  - apply Forall_forall. intros x Hx%repeat_spec. lia.
  - eapply Forall_impl; [|apply IH]. cbn; intros; lia.
Qed.

Lemma expand_from_sorted k p : StronglySorted Z.le (expand_from k p).
Proof.
  revert k. induction p as [|c p IH]; intros k; cbn [expand_from]; [constructor|].
  induction c as [|c IHc]; cbn [repeat app]; [apply IH|].
  constructor; [assumption|]. apply Forall_app. split.
  - apply Forall_forall. intros x Hx%repeat_spec. lia.
  - eapply Forall_impl; [|apply (expand_from_lower (k + 1))]. cbn; intros; lia.
Qed.

Lemma expand_from_inj k p : forall q,
  length p = length q -> expand_from k p = expand_from k q -> p = q.
Proof.
  revert k. induction p as [|c p IH]; intros k [|d q] Hlen E; try discriminate; [reflexivity|].
  cbn [expand_from] in E. injection Hlen as Hlen.
  assert (H : c = d /\ expand_from (k + 1) p = expand_from (k + 1) q).
  { pose proof (expand_from_lower (k + 1) p) as Hp.
    pose proof (expand_from_lower (k + 1) q) as Hq.
    revert Hp Hq E. generalize (expand_from (k + 1) p) (expand_from (k + 1) q).
    intros A B HA HB. revert d.
    induction c as [|c IHc]; intros [|d] E; cbn [repeat app] in E.
    - now split.
    - subst A. apply Forall_inv in HA. lia.
    - subst B. apply Forall_inv in HB. lia.
    - injection E as E. destruct (IHc d E) as [-> ->]. now split. }
  destruct H as [-> H]. f_equal. eapply IH; eassumption.
Qed.

Lemma is_partition_from_one n l : 1 <= n -> is_partition n l <-> is_partition_from n 1 l.
Proof.
  intros Hn. unfold is_partition, is_partition_from. split.
  - intros (Hpos & Hsort & Htot). repeat split; try assumption.
    + intros ->. cbn in Htot. lia.
    + apply Sorted_StronglySorted; [exact Z.le_trans|assumption].
  - intros (_ & Hpos & Hsort & Htot). repeat split; try assumption.
    now apply StronglySorted_Sorted.
Qed.

Lemma partitions_spec n l : 1 <= n -> In l (partitions n 1) <-> is_partition n l.
Proof.
  intros Hn. rewrite is_partition_from_one by assumption. split.
  - apply (partitions_sound (Z.to_nat n)); lia.
  - apply (partitions_complete (Z.to_nat n)); lia.
Qed.

Lemma partcounts_spec n p :
  1 <= n -> In p (partcounts n 1) <-> is_partcount (Z.to_nat n) p.
Proof.
  intros Hn. unfold is_partcount. split.
  - intros Hin. split.
    + apply (partcounts_length (Z.to_nat n) n 1); [lia|lia|assumption].
    + assert (Hex : In (expand p) (partitions n 1)).
      { rewrite <- (expand_partcounts (Z.to_nat n)) by lia. now apply in_map. }
      apply partitions_spec in Hex as (_ & _ & Htot); [|assumption].
      unfold expand in Htot. change 1 with (Z.of_nat 1) in Htot.
      rewrite total_expand_from in Htot. unfold weight. lia.
  - intros [Hlen Hw].
    assert (Hex : In (expand p) (partitions n 1)).
    { apply partitions_spec; [assumption|]. repeat split.
      - apply expand_from_lower.
      - apply StronglySorted_Sorted, expand_from_sorted.
      - unfold expand. change 1 with (Z.of_nat 1).
        rewrite total_expand_from. fold (weight p). lia. }
    rewrite <- (expand_partcounts (Z.to_nat n)) in Hex by lia.
    apply in_map_iff in Hex as (q & E & Hq).
    assert (q = p) as <-; [|assumption].
    apply (expand_from_inj 1); [|assumption].
    rewrite (partcounts_length (Z.to_nat n) n 1 q); [lia|lia|lia|assumption].
Qed.

Lemma partcounts_NoDup n : 1 <= n -> NoDup (partcounts n 1).
Proof.
  intros Hn. apply (NoDup_map_inv expand).
  rewrite (expand_partcounts (Z.to_nat n)) by lia.
  apply (partitions_NoDup (Z.to_nat n)); lia.
Qed.

Lemma partitions_length n :
  1 <= n -> length (partitions n 1) = partition_number (Z.to_nat n).
Proof.
  intros Hn. unfold partition_number.
  rewrite parts_at_least_partitions by lia. f_equal. f_equal. lia.
Qed.

(** Partitions as multisets: every list has one non-decreasing
    rearrangement. *)
Lemma total_Permutation l1 l2 : Permutation l1 l2 -> total l1 = total l2.
Proof.
  induction 1 as [| a l1 l2 _ IH | a b l | l1 l2 l3 _ IH1 _ IH2].
  - reflexivity.
  - now rewrite !total_cons, IH.
  - rewrite !total_cons. lia.
  - now rewrite IH1.
Qed.

Lemma insert_sorted a l :
  StronglySorted Z.le l ->
  exists l', Permutation (a :: l) l' /\ StronglySorted Z.le l'.
Proof.
  induction 1 as [|b l Hl IH Hb].
  - exists [a]. split; [reflexivity|repeat constructor].
  - destruct (Z.le_gt_cases a b) as [Hab|Hba].
    + exists (a :: b :: l). split; [reflexivity|].
      constructor; [now constructor|]. constructor; [assumption|].
      eapply Forall_impl; [|exact Hb]. cbn; intros; lia.
    + destruct IH as (l' & Hperm & Hsort). exists (b :: l'). split.
      * rewrite perm_swap. now constructor.
      * constructor; [assumption|].
        eapply Permutation_Forall; [exact Hperm|]. constructor; [lia|assumption].
Qed.

Lemma sorted_rearrangement l :
  exists l', Permutation l l' /\ StronglySorted Z.le l'.
Proof.
  induction l as [|a l (l0 & Hperm & Hsort)].
  - exists []. split; constructor.
  - destruct (insert_sorted a l0 Hsort) as (l' & Hperm' & Hsort').
    exists l'. split; [|assumption].
    now rewrite <- Hperm', <- Hperm.
Qed.

Lemma sorted_rearrangement_unique l1 : forall l2,
  StronglySorted Z.le l1 -> StronglySorted Z.le l2 -> Permutation l1 l2 -> l1 = l2.
Proof.
  induction l1 as [|a l1 IH]; intros l2 H1 H2 Hperm.
  - symmetry. now apply Permutation_nil.
  - destruct l2 as [|b l2]; [symmetry in Hperm; now apply Permutation_nil in Hperm|].
    apply StronglySorted_inv in H1 as [H1 Ha]. apply StronglySorted_inv in H2 as [H2 Hb].
    assert (a = b) as <-.
    { assert (Hin1 : In a (b :: l2)) by (eapply Permutation_in; [exact Hperm|now left]).
      assert (Hin2 : In b (a :: l1))
        by (eapply Permutation_in; [symmetry; exact Hperm|now left]).
      rewrite Forall_forall in Ha, Hb.
      destruct Hin1 as [->|Hin1]; [reflexivity|]. destruct Hin2 as [->|Hin2]; [reflexivity|].
      apply Ha in Hin2. apply Hb in Hin1. lia. }
    f_equal. apply IH; [assumption|assumption|]. now apply Permutation_cons_inv in Hperm.
Qed.

(** Every multiset of positive integers that sum to [n] is yielded once. *)
Lemma partitions_multiset n l :
  1 <= n -> Forall (fun x => 1 <= x) l -> total l = n ->
  exists t, In t (partitions n 1) /\ Permutation t l /\
            forall t', In t' (partitions n 1) -> Permutation t' l -> t' = t.
Proof.
  intros Hn Hpos Htot. destruct (sorted_rearrangement l) as (t & Hperm & Hsort).
  exists t. split; [|split].
  - apply partitions_spec; [assumption|]. repeat split.
    + eapply Permutation_Forall; eassumption.
    + now apply StronglySorted_Sorted.
    + rewrite <- Htot. symmetry. now apply total_Permutation.
  - now symmetry.
  - intros t' Ht' Hperm'. apply partitions_spec in Ht' as (_ & Hsort' & _); [|assumption].
    apply sorted_rearrangement_unique; [|assumption|].
    + apply Sorted_StronglySorted; [exact Z.le_trans|assumption].
    + now rewrite Hperm'.
Qed.

(** C4.  For every [n >= 1]: every tuple yielded by [partitions(n)] is made
    of positive integers that sum to [n]; every list yielded by
    [partcounts(n)] has weighted sum [Σ (i+1)·p[i] = n]; [partitions(n)]
    yields each partition of [n] exactly once (as a non-decreasing tuple:
    every multiset of positive integers that sum to [n] is a rearrangement
    of exactly one yielded tuple) and [partcounts(n)] each partition-count
    vector of [n] exactly once, the [k]th vector counting the parts of the
    [k]th partition; and both yield p(n) values, p(n) being the number of
    partitions of [n] (7 for [n = 5]). *)
Theorem partitions_partcounts_enumerate (n : Z) :
  1 <= n ->
  (forall t, In t (partitions n 1) -> Forall (fun x => 1 <= x) t /\ total t = n) /\
  (forall p, In p (partcounts n 1) -> weight p = Z.to_nat n) /\
  (NoDup (partitions n 1) /\ forall l, In l (partitions n 1) <-> is_partition n l) /\
  (forall l, Forall (fun x => 1 <= x) l -> total l = n ->
             exists t, In t (partitions n 1) /\ Permutation t l /\
                       forall t', In t' (partitions n 1) -> Permutation t' l -> t' = t) /\
  (NoDup (partcounts n 1) /\
   forall p, In p (partcounts n 1) <-> is_partcount (Z.to_nat n) p) /\
  map expand (partcounts n 1) = partitions n 1 /\
  length (partitions n 1) = partition_number (Z.to_nat n) /\
  length (partcounts n 1) = partition_number (Z.to_nat n) /\
  (forall L, NoDup L -> (forall l, In l L <-> is_partition n l) ->
             length L = partition_number (Z.to_nat n)) /\
  partition_number 5 = 7%nat.
Proof.
  intros Hn.
  pose proof (expand_partcounts (Z.to_nat n) n 1 ltac:(lia) ltac:(lia)) as Hexp.
  pose proof (partitions_NoDup (Z.to_nat n) n 1 ltac:(lia) ltac:(lia)) as Hnd.
  repeat match goal with |- _ /\ _ => split end.
  - intros t Ht%partitions_spec; [|assumption]. destruct Ht as (? & _ & ?). now split.
  - intros p Hp%partcounts_spec; [|assumption]. apply Hp.
  - assumption.
  - intros l. now apply partitions_spec.
  - intros l. now apply partitions_multiset.
  - now apply partcounts_NoDup.
  - intros p. now apply partcounts_spec.
  - assumption.
  - now apply partitions_length.
  - rewrite <- partitions_length, <- Hexp by assumption. symmetry. apply length_map.
  - intros L HL HinL. rewrite <- partitions_length by assumption.
    apply Permutation_length, NoDup_Permutation; [assumption|assumption|].
    intros l. rewrite HinL. symmetry. now apply partitions_spec.
  - reflexivity.
Qed.

Lemma partitions_partcounts_enumerate_witness :
  1 <= 5 /\ length (partitions 5 1) = 7%nat /\ length (partcounts 5 1) = 7%nat.
Proof.
  split; [lia|].
  pose proof (partitions_partcounts_enumerate 5 ltac:(lia)) as (_ & _ & _ & _ & _ & _ & H1 & H2 & _).
  split; [exact H1 | exact H2].
Defined.

(** ** The weight and the number of parts of a count vector *)

Lemma fold_left_add_acc p a : fold_left Nat.add p a = (a + fold_left Nat.add p 0)%nat.
Proof.
  revert a. induction p as [|c p IH]; intros a; cbn [fold_left]; [lia|].
  rewrite (IH (a + c)%nat), (IH (0 + c)%nat). lia.
Qed.

Lemma sum_cons c p : sum (c :: p) = (c + sum p)%nat.
Proof. unfold sum. cbn [fold_left]. rewrite fold_left_add_acc. lia. Qed.

Lemma sum_app p q : sum (p ++ q) = (sum p + sum q)%nat.
Proof.
  induction p as [|c p IH]; [reflexivity|].
  rewrite <- app_comm_cons, !sum_cons, IH. lia.
Qed.

Lemma sum_repeat_zero j : sum (repeat 0%nat j) = 0%nat.
Proof. induction j as [|j IH]; [reflexivity|]. cbn [repeat]. now rewrite sum_cons, IH. Qed.

Lemma weight_from_app k p q :
  weight_from k (p ++ q) = (weight_from k p + weight_from (k + length p) q)%nat.
Proof.
  revert k. induction p as [|c p IH]; intros k; cbn [app weight_from length].
  - now rewrite Nat.add_0_r.
  - rewrite IH. replace (S k + length p)%nat with (k + S (length p))%nat by lia. lia.
Qed.

Lemma sum_le_weight k p : (1 <= k)%nat -> (sum p <= weight_from k p)%nat.
Proof.
  revert k. induction p as [|c p IH]; intros k Hk; [apply Nat.le_refl|].
  rewrite sum_cons. cbn [weight_from]. specialize (IH (S k) ltac:(lia)). nia.
Qed.

Lemma weight_le_sum k p : (weight_from k p + sum p <= (k + length p) * sum p)%nat.
Proof.
  revert k. induction p as [|c p IH]; intros k; [cbn; lia|].
  rewrite sum_cons. cbn [weight_from length]. specialize (IH (S k)). nia.
Qed.

(** A count vector of [n >= 1] selects an entry of a sequence of length [n]:
    [1 <= sum(p) <= n]. *)
Lemma partcount_sum n p : (1 <= n)%nat -> is_partcount n p -> (1 <= sum p <= n)%nat.
Proof.
  intros Hn [Hlen Hw]. unfold weight in Hw.
  pose proof (sum_le_weight 1 p ltac:(lia)). pose proof (weight_le_sum 1 p). nia.
Qed.

(** ** [tayparts] *)

Lemma incr_app k l r : (k < length l)%nat -> incr k (l ++ r) = incr k l ++ r.
Proof.
  revert k. induction l as [|c l IH]; intros [|k] H; cbn in H |- *; try lia; [reflexivity|].
  rewrite IH by lia. reflexivity.
Qed.

Lemma zeros_snoc i : 1 <= i -> zeros i = zeros (i - 1) ++ [0%nat].
Proof.
  intros Hi. unfold zeros. replace (Z.to_nat i) with (Z.to_nat (i - 1) + 1)%nat by lia.
  now rewrite repeat_app.
Qed.

(** [partcounts(n)] is the whole-[n] vector followed by the vectors of
    [tayparts(n)], each with one more entry, [0], for the part [n]. *)
Lemma partcounts_tayparts n :
  1 <= n ->
  partcounts n 1 =
  (zeros (n - 1) ++ [1%nat]) :: map (fun v => v ++ [0%nat]) (tayparts n).
Proof.
  intros Hn. rewrite partcounts_eq by lia. f_equal. unfold tayparts.
  rewrite map_flat_map, (Z.add_comm 1). apply flat_map_ext_in.
  intros i Hi%in_range. halves n. rewrite map_map. apply map_ext_in. intros q Hq.
  pose proof (partcounts_length (Z.to_nat (n - i)) (n - i) i q ltac:(lia) ltac:(lia) Hq) as Hlen.
  rewrite zeros_snoc by lia. rewrite app_assoc. apply incr_app.
  rewrite length_app, length_zeros. lia.
Qed.

Lemma tayparts_spec n v :
  2 <= n ->
  In v (tayparts n) <-> (length v = Z.to_nat n - 1)%nat /\ weight v = Z.to_nat n.
Proof.
  intros Hn.
  assert (Hw : weight (v ++ [0%nat]) = weight v).
  { unfold weight. rewrite weight_from_app. cbn. lia. }
  split.
  - intros Hin.
    assert (Hp : In (v ++ [0%nat]) (partcounts n 1)).
    { rewrite partcounts_tayparts by lia. right. now apply in_map with (f := fun v => v ++ [0%nat]). }
    apply partcounts_spec in Hp as [Hlen Hwt]; [|lia].
    rewrite length_app in Hlen. cbn in Hlen. rewrite Hw in Hwt. lia.
  - intros [Hlen Hwt].
    assert (Hp : In (v ++ [0%nat]) (partcounts n 1)).
    { apply partcounts_spec; [lia|]. split; [|congruence].
      rewrite length_app. cbn. lia. }
    rewrite partcounts_tayparts in Hp by lia. destruct Hp as [E | Hp].
    + apply app_inj_tail in E as [_ E]. discriminate.
    + apply in_map_iff in Hp as (v' & E & Hv'). apply app_inj_tail in E as [-> _]. assumption.
Qed.

Lemma tayparts_NoDup n : 1 <= n -> NoDup (tayparts n).
Proof.
  intros Hn. pose proof (partcounts_NoDup n Hn) as H.
  rewrite partcounts_tayparts in H by lia. apply NoDup_cons_iff in H as [_ H].
  now apply NoDup_map_inv in H.
Qed.

Lemma tayparts_sum n v : 2 <= n -> In v (tayparts n) -> (2 <= sum v <= Z.to_nat n)%nat.
Proof.
  intros Hn [Hlen Hw]%tayparts_spec; [|assumption]. unfold weight in Hw.
  pose proof (sum_le_weight 1 v ltac:(lia)). pose proof (weight_le_sum 1 v). nia.
Qed.

(** C5, as the code has it.  For every [n >= 2], [partcounts(n)] is the
    whole-[n] vector followed, in the same order, by the vectors of
    [tayparts(n)] each extended by a final [0]: [tayparts(n)] yields exactly
    the count vectors of the partitions of [n] with at least two parts, each
    exactly once, without the entry for the part [n], so that each emitted
    vector has length [n - 1]. *)
Theorem tayparts_enumerate (n : Z) :
  2 <= n ->
  partcounts n 1 = (zeros (n - 1) ++ [1%nat]) :: map (fun v => v ++ [0%nat]) (tayparts n) /\
  NoDup (tayparts n) /\
  (forall v, In v (tayparts n) <->
             (length v = Z.to_nat n - 1)%nat /\ weight v = Z.to_nat n) /\
  (forall p, is_partcount (Z.to_nat n) p /\ (2 <= sum p)%nat <->
             exists v, In v (tayparts n) /\ p = v ++ [0%nat]).
Proof.
  intros Hn. split; [apply partcounts_tayparts; lia|].
  split; [apply tayparts_NoDup; lia|].
  split; [intros v; now apply tayparts_spec|].
  intros p. split.
  - intros [Hp Hs]. apply partcounts_spec in Hp; [|lia].
    rewrite partcounts_tayparts in Hp by lia. destruct Hp as [<- | Hp].
    + unfold zeros in Hs. rewrite sum_app, sum_repeat_zero in Hs. cbn in Hs. lia.
    + apply in_map_iff in Hp as (v & <- & Hv). now exists v.
  - intros (v & Hv & ->). split.
    + apply partcounts_spec; [lia|]. rewrite partcounts_tayparts by lia.
      right. now apply in_map with (f := fun v => v ++ [0%nat]).
    + rewrite sum_app. apply tayparts_sum in Hv; [|assumption]. lia.
Qed.

Lemma tayparts_enumerate_witness :
  2 <= 4 /\ tayparts 4 = [[1; 0; 1]; [2; 1; 0]; [4; 0; 0]; [0; 2; 0]]%nat /\ NoDup (tayparts 4).
Proof.
  split; [lia|]. split; [reflexivity|].
  exact (proj1 (proj2 (tayparts_enumerate 4 ltac:(lia)))).
Defined.

(** The vectors of [tayparts(2)] have length 1, not 2, and are not among
    those of [partcounts(2)]. *)
Lemma tayparts_length_counterexample :
  tayparts 2 = [[2%nat]] /\
  ~ (forall p, In p (tayparts 2) -> length p = 2%nat) /\
  ~ (forall p, In p (tayparts 2) -> In p (partcounts 2 1)).
Proof.
  split; [reflexivity|]. split.
  - intros H. specialize (H [2%nat] (or_introl eq_refl)). cbn in H. lia.
  - intros H. specialize (H [2%nat] (or_introl eq_refl)).
    vm_compute in H. destruct H as [H|[H|[]]]; discriminate.
Qed.

(** ** Invalid and degenerate inputs *)

(** C9, as the code has it.  The generators validate nothing: for every
    [n <= 0], [partitions(n)] yields the single tuple [(n,)] and
    [partcounts(n)] the single list [[1]], and neither raises. *)
Theorem partitions_nonpositive (n : Z) :
  n <= 0 -> partitions n 1 = [[n]] /\ partcounts n 1 = [[1%nat]].
Proof.
  intros Hn. unfold partitions, partcounts.
  replace (Z.to_nat n) with 0%nat by lia. cbn [partitions_rec partcounts_rec].
  unfold zeros. replace (Z.to_nat (n - 1)) with 0%nat by lia.
  split; reflexivity.
Qed.

Lemma partitions_nonpositive_witness :
  -3 <= 0 /\ partitions (-3) 1 = [[-3]] /\ partcounts (-3) 1 = [[1%nat]].
Proof. split; [lia|]. apply (partitions_nonpositive (-3)). lia. Defined.

(** [partitions(0)] and [partcounts(0)] each yield a value. *)
Lemma partitions_zero_counterexample :
  partitions 0 1 = [[0]] /\ partcounts 0 1 = [[1%nat]] /\
  ~ (partitions 0 1 = [] /\ partcounts 0 1 = []).
Proof. split; [reflexivity|]. split; [reflexivity|]. intros [H _]. discriminate. Qed.

(** C10.  [taylor(x, c, [])] returns 0 for every [x] and [c]: the loop body
    never runs, and nothing can raise. *)
Theorem taylor_empty (x c : Qc) : taylor x c [] = 0%Qc.
Proof. reflexivity. Qed.

(** ** Arithmetic on numbers *)

Lemma Qc_eq_bool_refl q : Qc_eq_bool q q = true.
Proof. unfold Qc_eq_bool. destruct (Qc_eq_dec q q); congruence. Qed.

Lemma Qc_eq_bool_neq p q : p <> q -> Qc_eq_bool p q = false.
Proof. intros H. unfold Qc_eq_bool. destruct (Qc_eq_dec p q); congruence. Qed.

Lemma truediv_zero a : truediv a 0%Qc = Raise ZeroDivisionError.
Proof. unfold truediv. now rewrite Qc_eq_bool_refl. Qed.

Lemma truediv_ok a b : b <> 0%Qc -> truediv a b = Ok (a / b)%Qc.
Proof. intros H. unfold truediv. now rewrite Qc_eq_bool_neq. Qed.

Lemma num_mul a b : num (a * b) = (num a * num b)%Qc.
Proof.
  unfold num, Qcmult. apply Q2Qc_eq_iff. cbn [this Q2Qc].
  rewrite !Qred_correct, inject_Z_mult. reflexivity.
Qed.

Lemma num_inj a b : num a = num b -> a = b.
Proof. unfold num. intros H%Q2Qc_eq_iff. now apply inject_Z_injective. Qed.

Lemma num_nonzero a : a <> 0 -> num a <> 0%Qc.
Proof. intros H E. apply H. now apply num_inj. Qed.

Lemma num_pow a k : num (a ^ Z.of_nat k) = (num a ^ k)%Qc.
Proof.
  induction k as [|k IH].
  - reflexivity.
  - rewrite Nat2Z.inj_succ, Z.pow_succ_r by lia. rewrite num_mul, IH. reflexivity.
Qed.

Lemma fac_pos n : 0 < fac n.
Proof. induction n as [|n IH]; [reflexivity|]. cbn [fac]. lia. Qed.

Lemma Qcpower_nonzero q k : q <> 0%Qc -> (q ^ k)%Qc <> 0%Qc.
Proof.
  intros H. induction k as [|k IH]; cbn [Qcpower].
  - discriminate.
  - intros E. apply Qcmult_integral in E as [E|E]; contradiction.
Qed.

(** ** Indexing *)

Lemma getitem_nat {A : Type} (l : list A) (i : nat) (d : A) :
  (i < length l)%nat -> getitem l (Z.of_nat i) = Ok (nth i l d).
Proof.
  intros H. unfold getitem.
  destruct (Z.ltb_spec (Z.of_nat i) 0) as [?|_]; [lia|].
  destruct (Z.ltb_spec (Z.of_nat i) 0) as [?|_]; [lia|].
  rewrite Nat2Z.id, (nth_error_nth' l d H). reflexivity.
Qed.

Lemma getitem_last {A : Type} (l : list A) (d : A) :
  (1 <= length l)%nat -> getitem l (-1) = Ok (nth (length l - 1) l d).
Proof.
  intros H. unfold getitem. cbn [Z.ltb Z.compare].
  destruct (Z.ltb_spec (-1 + Z.of_nat (length l)) 0) as [?|_]; [lia|].
  replace (Z.to_nat (-1 + Z.of_nat (length l))) with (length l - 1)%nat by lia.
  rewrite (nth_error_nth' l d) by lia. reflexivity.
Qed.

(** ** The inverse of a series with no linear term *)

(** C8.  When [f[0] = 0], [_taylor_inverse(f)] raises at [1/f[0]]: the
    caller gets a [ZeroDivisionError], the code's domain error, and no
    value. *)
Theorem taylor_inverse_zero_linear (f : list Qc) :
  getitem f 0 = Ok 0%Qc -> _taylor_inverse f = Raise ZeroDivisionError.
Proof.
  intros H. unfold _taylor_inverse. rewrite H. cbn [bind].
  rewrite truediv_zero. reflexivity.
Qed.

Lemma taylor_inverse_zero_linear_witness :
  getitem (qs [0; 1; 2]) 0 = Ok 0%Qc /\
  _taylor_inverse (qs [0; 1; 2]) = Raise ZeroDivisionError.
Proof.
  split; [reflexivity|]. apply taylor_inverse_zero_linear. reflexivity.
Defined.

(** ** Binomial coefficients *)

Lemma choose_0 n : choose n 0 = 1.
Proof. now destruct n. Qed.

Lemma choose_gt n : forall k, (n < k)%nat -> choose n k = 0.
Proof.
  induction n as [|n IH]; intros [|k] H; cbn [choose]; try lia.
  rewrite !IH by lia. reflexivity.
Qed.

Lemma choose_diag n : choose n n = 1.
Proof.
  induction n as [|n IH]; cbn [choose]; [reflexivity|].
  rewrite IH, choose_gt by lia. reflexivity.
Qed.

Lemma choose_absorb n : forall k,
  (Z.of_nat k + 1) * choose n (S k) = (Z.of_nat n - Z.of_nat k) * choose n k.
Proof.
  induction n as [|n IH]; intros k.
  - destruct k; cbn [choose]; lia.
  - destruct k as [|k].
    + pose proof (IH 0%nat) as H0. cbn [choose]. rewrite !choose_0 in *. lia.
    + pose proof (IH k) as H1. pose proof (IH (S k)) as H2.
      cbn [choose]. nia.
Qed.

Lemma choose_step m k :
  choose (S m) k * (Z.of_nat (S m) - Z.of_nat k) = Z.of_nat (S m) * choose m k.
Proof.
  destruct k as [|k].
  - rewrite !choose_0. lia.
  - pose proof (choose_absorb m k). cbn [choose]. nia.
Qed.

(** ** Lists of numbers *)

Lemma qsum_app l1 l2 : qsum (l1 ++ l2) = (qsum l1 + qsum l2)%Qc.
Proof.
  induction l1 as [|a l1 IH]; cbn [app qsum fold_right].
  - now rewrite Qcplus_0_l.
  - fold (qsum (l1 ++ l2)). rewrite IH. fold (qsum l1). ring.
Qed.

Lemma qsum_cons a l : qsum (a :: l) = (a + qsum l)%Qc.
Proof. reflexivity. Qed.

Lemma qprod_cons a l : qprod (a :: l) = (a * qprod l)%Qc.
Proof. reflexivity. Qed.

Lemma qprod_app l1 l2 : qprod (l1 ++ l2) = (qprod l1 * qprod l2)%Qc.
Proof.
  induction l1 as [|a l1 IH]; [cbn [app]; unfold qprod at 2; cbn; ring|].
  rewrite <- app_comm_cons, !qprod_cons, IH. ring.
Qed.

Lemma qsum_Permutation l1 l2 : Permutation l1 l2 -> qsum l1 = qsum l2.
Proof.
  induction 1 as [| a l1 l2 _ IH | a b l | l1 l2 l3 _ IH1 _ IH2].
  - reflexivity.
  - now rewrite !qsum_cons, IH.
  - rewrite !qsum_cons. ring.
  - now rewrite IH1.
Qed.

(** A loop that appends one computed value per turn. *)
Lemma foldM_collect {A B : Type} (F : A -> result B) (v : A -> B) (l : list A) :
  forall acc,
  (forall a, In a l -> F a = Ok (v a)) ->
  foldM (fun out a => x <- F a ;; Ok (out ++ [x])) l acc = Ok (acc ++ map v l).
Proof.
  induction l as [|a l IH]; intros acc H; cbn [foldM map].
  - now rewrite app_nil_r.
  - rewrite (H a (or_introl eq_refl)). cbn [bind]. rewrite IH.
    + now rewrite <- app_assoc.
    + intros b Hb. apply H. now right.
Qed.

(** ** [taylor_recenter] is the Taylor shift *)

Lemma recenter_inner x c t k : forall len a s,
  (k < a)%nat -> (a + len <= length t)%nat ->
  foldM (recenter_step x c t k) (seq a len)
        (s, (num (choose (a - 1) k) * (x - c) ^ (a - 1 - k))%Qc) =
  Ok ((s + qsum (map (fun j => num (choose j k) * nth j t 0 * (x - c) ^ (j - k))
                     (seq (a - 1) len)))%Qc,
      (num (choose (a + len - 1) k) * (x - c) ^ (a + len - 1 - k))%Qc).
Proof.
  induction len as [|len IH]; intros a s Hk Hlen.
  - cbn [seq foldM map qsum fold_right]. rewrite Nat.add_0_r, Qcplus_0_r. reflexivity.
  - cbn [seq foldM recenter_step].
    replace (Z.of_nat a - 1) with (Z.of_nat (a - 1)) by lia.
    rewrite (getitem_nat t (a - 1) 0%Qc) by lia. cbn [bind].
    assert (Hnz : num (Z.of_nat a - Z.of_nat k) <> 0%Qc) by (apply num_nonzero; lia).
    rewrite truediv_ok by assumption. cbn [bind].
    assert (HP : (num (choose (a - 1) k) * (x - c) ^ (a - 1 - k) *
                  (num (Z.of_nat a) * (x - c) / num (Z.of_nat a - Z.of_nat k)))%Qc =
                 (num (choose (S a - 1) k) * (x - c) ^ (S a - 1 - k))%Qc).
    { replace (S a - 1)%nat with a by lia.
      replace (a - k)%nat with (S (a - 1 - k)) by lia. cbn [Qcpower].
      destruct a as [|m]; [lia|]. replace (S m - 1)%nat with m by lia.
      pose proof (choose_step m k) as Hc.
      apply (f_equal num) in Hc. rewrite !num_mul in Hc.
      generalize dependent (num (choose (S m) k)). generalize (num (choose m k)).
      generalize dependent (num (Z.of_nat (S m) - Z.of_nat k)).
      generalize (num (Z.of_nat (S m))). generalize ((x - c) ^ (m - k))%Qc. generalize (x - c)%Qc.
      intros d D A Dn Hnz C C' Hc.
      assert (C' = A * C / Dn)%Qc as -> by (rewrite <- Hc; field; assumption).
      field. assumption. }
    rewrite HP, IH by lia.
    replace (S a - 1)%nat with a by lia. replace (S a + len - 1)%nat with (a + S len - 1)%nat by lia.
    replace (seq (a - 1) (S len)) with ((a - 1)%nat :: seq a len)
      by (cbn [seq]; f_equal; f_equal; lia).
    cbn [map]. rewrite qsum_cons. replace (S (a - 1)) with a by lia. do 2 f_equal. ring.
Qed.

Lemma recenter_value_eq x c t k :
  (k < length t)%nat -> recenter_value x c t k = Ok (shift_coeff x c t k).
Proof.
  intros Hk. unfold recenter_value.
  pose proof (recenter_inner x c t k (length t - (k + 1)) (k + 1) 0%Qc ltac:(lia) ltac:(lia)) as H.
  replace (k + 1 - 1)%nat with k in H by lia.
  rewrite Nat.sub_diag, choose_diag in H. cbn [Qcpower] in H.
  change (num 1) with 1%Qc in H. rewrite Qcmult_1_l in H.
  rewrite H. cbn [bind]. rewrite (getitem_last t 0%Qc) by lia. cbn [bind fst snd].
  f_equal. unfold shift_coeff.
  replace (length t - k)%nat with (length t - (k + 1) + 1)%nat by lia.
  rewrite seq_app, map_app, qsum_app. cbn [seq map]. rewrite qsum_cons.
  cbn [qsum fold_right].
  replace (k + 1 + (length t - (k + 1)) - 1)%nat with (length t - 1)%nat by lia.
  replace (k + (length t - (k + 1)))%nat with (length t - 1)%nat by lia.
  ring.
Qed.

(** C7.  [taylor_recenter(x, c, t)] yields [len(t)] values, and the [k]th is
    [Σ_{j=k}^{n−1} C(j,k)·t[j]·(x−c)^(j−k)], the Taylor shift of the
    truncated series to the new center. *)
Theorem taylor_recenter_shift (x c : Qc) (t : list Qc) :
  taylor_recenter x c t = Ok (map (shift_coeff x c t) (seq 0 (length t))) /\
  length (map (shift_coeff x c t) (seq 0 (length t))) = length t.
Proof.
  split.
  - unfold taylor_recenter. rewrite (foldM_collect _ (shift_coeff x c t)); [reflexivity|].
    intros k Hk%in_seq. apply recenter_value_eq. lia.
  - now rewrite length_map, length_seq.
Qed.

(** ** [faadibruno] computes the formula *)

Lemma num_fac_nonzero n : num (fac n) <> 0%Qc.
Proof. apply num_nonzero. pose proof (fac_pos n). lia. Qed.

Lemma factor_loop g : forall q pre P0,
  (length pre + length q <= length g)%nat ->
  foldM (factor_step g) (enumerate_from (length pre) q) P0 =
  Ok (P0 * qprod (map (fdb_factor g (pre ++ q)) (seq (length pre) (length q))))%Qc.
Proof.
  induction q as [|c q IH]; intros pre P0 Hlen.
  - cbn [enumerate_from foldM length seq map]. f_equal. unfold qprod. cbn. ring.
  - cbn [length] in Hlen. cbn [enumerate_from foldM factor_step].
    rewrite (getitem_nat g (length pre) 0%Qc) by lia. cbn [bind].
    rewrite truediv_ok by apply num_fac_nonzero. cbn [bind].
    rewrite num_pow, truediv_ok by apply Qcpower_nonzero, num_fac_nonzero. cbn [bind].
    specialize (IH (pre ++ [c])). rewrite length_app in IH. cbn [length] in IH.
    rewrite Nat.add_1_r in IH. rewrite IH by lia. rewrite <- app_assoc. cbn [app].
    cbn [length seq map]. rewrite qprod_cons. f_equal.
    unfold fdb_factor at 2. rewrite nth_middle. rewrite (Nat.add_comm (length pre) 1).
    ring.
Qed.

Lemma summand_eq f g n p :
  (1 <= sum p <= length f)%nat -> (length p <= length g)%nat ->
  summand f g n p = Ok (fdb_term f g n p).
Proof.
  intros Hs Hp. unfold summand.
  replace (Z.of_nat (sum p) - 1) with (Z.of_nat (sum p - 1)) by lia.
  rewrite (getitem_nat f (sum p - 1) 0%Qc) by lia. cbn [bind].
  apply (factor_loop g p []). cbn [length]. lia.
Qed.

Lemma summation_loop f g n (T : list nat -> Qc) parts : forall s0,
  (forall p, In p parts -> summand f g n p = Ok (T p)) ->
  foldM (fun s p => P <- summand f g n p ;; Ok (s + P)%Qc) parts s0 =
  Ok (s0 + qsum (map T parts))%Qc.
Proof.
  induction parts as [|p parts IH]; intros s0 H; cbn [foldM map].
  - f_equal. unfold qsum. cbn. ring.
  - rewrite (H p (or_introl eq_refl)). cbn [bind]. rewrite IH.
    + rewrite qsum_cons. f_equal. ring.
    + intros q Hq. apply H. now right.
Qed.

Lemma summation_eq f g n (T : list nat -> Qc) parts :
  (forall p, In p parts -> summand f g n p = Ok (T p)) ->
  summation f g n parts = Ok (qsum (map T parts)).
Proof.
  intros H. unfold summation. rewrite (summation_loop f g n T) by assumption.
  f_equal. ring.
Qed.

Lemma faadibruno_eq f g :
  (length f <= length g)%nat ->
  faadibruno f g = Ok (map (faadibruno_value f g) (seq 1 (length f))).
Proof.
  intros Hlen. unfold faadibruno.
  rewrite (foldM_collect _ (faadibruno_value f g)); [reflexivity|].
  intros n Hn%in_seq. apply summation_eq. intros p Hp%partcounts_spec; [|lia].
  rewrite Nat2Z.id in Hp. pose proof (partcount_sum n p ltac:(lia) Hp). destruct Hp as [Hl _].
  apply summand_eq; lia.
Qed.

(** C1.  For [f] and [g] of equal length [N], [faadibruno(f, g)] yields [N]
    values, and the [n]th ([n = 1..N]) is the sum, over the partition-count
    vectors [p] of [n] (each taken once, in any order), of
    [n!·f[Σp−1]·Π_i (g[i]^p[i] / p[i]! / (i+1)!^p[i])]. *)
Theorem faadibruno_formula (f g : list Qc) :
  length f = length g ->
  exists out,
    faadibruno f g = Ok out /\
    length out = length f /\
    forall n L,
      (1 <= n <= length f)%nat ->
      NoDup L -> (forall p, In p L <-> is_partcount n p) ->
      nth (n - 1) out 0%Qc = qsum (map (fdb_term f g n) L).
Proof.
  intros Hlen. exists (map (faadibruno_value f g) (seq 1 (length f))).
  split; [apply faadibruno_eq; lia|].
  split; [now rewrite length_map, length_seq|].
  intros n L Hn HL HinL.
  rewrite (nth_indep _ 0%Qc (faadibruno_value f g 0)) by (rewrite length_map, length_seq; lia).
  rewrite map_nth, seq_nth by lia. replace (1 + (n - 1))%nat with n by lia.
  unfold faadibruno_value. apply qsum_Permutation, Permutation_map.
  apply NoDup_Permutation; [apply partcounts_NoDup; lia|assumption|].
  intros p. rewrite HinL, partcounts_spec by lia. now rewrite Nat2Z.id.
Qed.

Lemma faadibruno_formula_witness :
  length (qs [1; 1; 1]) = length (qs [1; -1; 2]) /\
  exists out, faadibruno (qs [1; 1; 1]) (qs [1; -1; 2]) = Ok out /\ length out = 3%nat.
Proof.
  split; [reflexivity|].
  destruct (faadibruno_formula (qs [1; 1; 1]) (qs [1; -1; 2]) eq_refl) as (out & H1 & H2 & _).
  exists out. split; [exact H1 | exact H2].
Defined.

(** ** [_taylor_inverse] solves the formula for the identity *)

Lemma fdb_term_ext f g g' n p :
  (forall i, (i < length p)%nat -> nth i g 0%Qc = nth i g' 0%Qc) ->
  fdb_term f g n p = fdb_term f g' n p.
Proof.
  intros H. unfold fdb_term. f_equal. f_equal. apply map_ext_in.
  intros i Hi%in_seq. unfold fdb_factor. rewrite H by lia. reflexivity.
Qed.

Lemma fdb_factor_zero g p i : nth i p 0%nat = 0%nat -> fdb_factor g p i = 1%Qc.
Proof.
  intros H. unfold fdb_factor. rewrite H. cbn [Qcpower fac].
  change (num 1) with 1%Qc. field. discriminate.
Qed.

Lemma qprod_ones {A : Type} (F : A -> Qc) (l : list A) :
  (forall a, In a l -> F a = 1%Qc) -> qprod (map F l) = 1%Qc.
Proof.
  induction l as [|a l IH]; intros H; [reflexivity|].
  cbn [map]. rewrite qprod_cons, (H a (or_introl eq_refl)), IH.
  - ring.
  - intros b Hb. apply H. now right.
Qed.

(** A vector and the same vector with a final [0] give the same term. *)
Lemma fdb_term_snoc_zero f g n v :
  fdb_term f g n (v ++ [0%nat]) = fdb_term f g n v.
Proof.
  unfold fdb_term. rewrite sum_app, length_app. cbn [length].
  replace (sum [0%nat]) with 0%nat by reflexivity. rewrite Nat.add_0_r.
  f_equal. rewrite seq_app, map_app, qprod_app. cbn [seq map].
  rewrite qprod_cons, fdb_factor_zero by apply nth_middle.
  replace (qprod []) with 1%Qc by reflexivity.
  rewrite (map_ext_in (fdb_factor g (v ++ [0%nat])) (fdb_factor g v)).
  - ring.
  - intros i Hi%in_seq. unfold fdb_factor. rewrite app_nth1 by lia. reflexivity.
Qed.

(** The term of the whole-[n] partition is [f[0]·g[n−1]]. *)
Lemma fdb_term_whole f g m :
  fdb_term f g (S m) (repeat 0%nat m ++ [1%nat]) = (nth 0 f 0 * nth m g 0)%Qc.
Proof.
  unfold fdb_term. rewrite sum_app, sum_repeat_zero, length_app, repeat_length.
  cbn [length]. replace (0 + sum [1%nat] - 1)%nat with 0%nat by reflexivity.
  rewrite seq_app, map_app, qprod_app. cbn [seq map]. rewrite qprod_cons.
  replace (qprod []) with 1%Qc by reflexivity.
  rewrite qprod_ones.
  - unfold fdb_factor.
    replace (nth (0 + m) (repeat 0%nat m ++ [1%nat]) 0%nat) with 1%nat
      by (rewrite app_nth2, repeat_length, Nat.add_0_l, Nat.sub_diag; [reflexivity|rewrite repeat_length; lia]).
    cbn [Nat.add]. replace (m + 1)%nat with (S m) by lia.
    change (num (fac 1)) with 1%Qc. cbn [Qcpower].
    pose proof (num_fac_nonzero (S m)). field. split; [discriminate|assumption].
  - intros i Hi%in_seq. apply fdb_factor_zero.
    rewrite app_nth1 by (rewrite repeat_length; lia). apply nth_repeat.
Qed.

Lemma faadibruno_value_snoc f g x n :
  (1 <= n <= length g)%nat ->
  faadibruno_value f (g ++ [x]) n = faadibruno_value f g n.
Proof.
  intros Hn. unfold faadibruno_value. f_equal. apply map_ext_in.
  intros p Hp%partcounts_spec; [|lia]. rewrite Nat2Z.id in Hp. destruct Hp as [Hl _].
  apply fdb_term_ext. intros i Hi. apply app_nth1. lia.
Qed.

Lemma getitem_0_inv (f : list Qc) f0 :
  getitem f 0 = Ok f0 -> nth 0 f 0%Qc = f0 /\ (1 <= length f)%nat.
Proof.
  unfold getitem. cbn. destruct f as [|a f]; [discriminate|].
  intros H. injection H as <-. cbn. split; [reflexivity|lia].
Qed.

(** One more order: the new entry makes the next derivative of the
    composition vanish. *)
Lemma inverse_step_spec f f0 g :
  getitem f 0 = Ok f0 -> f0 <> 0%Qc ->
  (1 <= length g)%nat -> (length g + 1 <= length f)%nat ->
  composes_to_identity f g ->
  exists x, inverse_step f g (S (length g)) = Ok (g ++ [x]) /\
            composes_to_identity f (g ++ [x]).
Proof.
  intros Hf0 Hnz Hg Hlen Hid. set (m := length g).
  set (S0 := qsum (map (fdb_term f g (S m)) (tayparts (Z.of_nat (S m))))).
  exists (- S0 / f0)%Qc. split.
  - unfold inverse_step. rewrite (summation_eq f g (S m) (fdb_term f g (S m))).
    + cbn [bind]. rewrite Hf0. cbn [bind]. rewrite truediv_ok by assumption. reflexivity.
    + intros v Hv. pose proof (tayparts_sum (Z.of_nat (S m)) v ltac:(lia) Hv) as Hs.
      apply tayparts_spec in Hv as [Hl _]; [|lia].
      apply summand_eq; lia.
  - intros n Hn. rewrite length_app in Hn. cbn [length] in Hn.
    destruct (Nat.eq_dec n (S m)) as [->|Hne].
    + replace (S m =? 1)%nat with false by (symmetry; apply Nat.eqb_neq; lia).
      unfold faadibruno_value. rewrite partcounts_tayparts by lia.
      unfold zeros. replace (Z.to_nat (Z.of_nat (S m) - 1)) with m by lia.
      cbn [map]. rewrite qsum_cons, fdb_term_whole, map_map.
      rewrite (map_ext_in _ (fdb_term f g (S m))).
      * fold S0. apply getitem_0_inv in Hf0 as [-> _].
        unfold m. rewrite nth_middle. field. assumption.
      * intros v Hv%tayparts_spec; [|lia]. destruct Hv as [Hl _].
        rewrite fdb_term_snoc_zero. apply fdb_term_ext.
        intros i Hi. apply app_nth1. lia.
    + rewrite faadibruno_value_snoc by lia. apply Hid. lia.
Qed.

Lemma inverse_loop f f0 : forall len g,
  getitem f 0 = Ok f0 -> f0 <> 0%Qc ->
  (1 <= length g)%nat -> (length g + len <= length f)%nat ->
  composes_to_identity f g ->
  exists g', foldM (inverse_step f) (seq (S (length g)) len) g = Ok g' /\
             length g' = (length g + len)%nat /\
             composes_to_identity f g'.
Proof.
  induction len as [|len IH]; intros g Hf0 Hnz Hg Hlen Hid.
  - exists g. cbn [seq foldM]. repeat split; [lia|assumption].
  - destruct (inverse_step_spec f f0 g Hf0 Hnz Hg ltac:(lia) Hid) as (x & Hstep & Hid').
    cbn [seq foldM]. rewrite Hstep. cbn [bind].
    destruct (IH (g ++ [x]) Hf0 Hnz) as (g' & Hrun & Hl & Hid'').
    + rewrite length_app. cbn [length]. lia.
    + rewrite length_app. cbn [length]. lia.
    + assumption.
    + rewrite length_app in Hrun, Hl. cbn [length] in Hrun, Hl.
      rewrite Nat.add_1_r in Hrun. exists g'. repeat split; [assumption|lia|assumption].
Qed.

Lemma map_constant {A B : Type} (F : A -> B) (c : B) (l : list A) :
  (forall a, In a l -> F a = c) -> map F l = repeat c (length l).
Proof.
  induction l as [|a l IH]; intros H; [reflexivity|].
  cbn [map length repeat]. rewrite (H a (or_introl eq_refl)), IH; [reflexivity|].
  intros b Hb. apply H. now right.
Qed.

(** C2.  When [f[0] <> 0], [_taylor_inverse(f)] returns a sequence [g] of
    the length of [f], and [faadibruno(f, g)] yields [1, 0, ..., 0], the
    derivative sequence of the identity, exactly. *)
Theorem inverse_composes_to_identity (f : list Qc) (f0 : Qc) :
  getitem f 0 = Ok f0 -> f0 <> 0%Qc ->
  exists g,
    _taylor_inverse f = Ok g /\
    length g = length f /\
    faadibruno f g = Ok (1%Qc :: repeat 0%Qc (length f - 1)).
Proof.
  intros Hf0 Hnz. pose proof (getitem_0_inv f f0 Hf0) as [Hn0 Hlen].
  assert (Hbase : composes_to_identity f [(1 / f0)%Qc]).
  { intros n Hn. cbn [length] in Hn. assert (n = 1%nat) as -> by lia.
    unfold faadibruno_value. change (partcounts (Z.of_nat 1) 1) with [repeat 0%nat 0 ++ [1%nat]].
    cbn [map]. rewrite qsum_cons, fdb_term_whole, Hn0. cbn [nth qsum fold_right Nat.eqb].
    field. assumption. }
  destruct (inverse_loop f f0 (length f - 1) [(1 / f0)%Qc] Hf0 Hnz) as (g & Hrun & Hl & Hid);
    [cbn [length]; lia | cbn [length]; lia | assumption |].
  cbn [length] in Hrun, Hl. exists g. split; [|split].
  - unfold _taylor_inverse. rewrite Hf0. cbn [bind].
    rewrite truediv_ok by assumption. cbn [bind]. exact Hrun.
  - lia.
  - rewrite faadibruno_eq by lia.
    replace (length f) with (S (length f - 1)) at 1 by lia. cbn [seq map]. f_equal. f_equal.
    + apply (Hid 1%nat). lia.
    + rewrite <- (length_seq (length f - 1) 2) at 2. apply map_constant.
      intros n Hn%in_seq. rewrite Hid by lia.
      destruct n as [|[|n]]; [lia|lia|reflexivity].
Qed.

Lemma inverse_composes_to_identity_witness :
  getitem (qs [2; 3; 5]) 0 = Ok (num 2) /\ num 2 <> 0%Qc /\
  exists g, _taylor_inverse (qs [2; 3; 5]) = Ok g /\
            faadibruno (qs [2; 3; 5]) g = Ok (qs [1; 0; 0]).
Proof.
  split; [reflexivity|]. split; [discriminate|].
  destruct (inverse_composes_to_identity (qs [2; 3; 5]) (num 2) eq_refl ltac:(discriminate))
    as (g & H1 & _ & H2).
  exists g. split; [exact H1 | exact H2].
Defined.

(** ** [taylor_inverse]: the conversions and the composite *)

Lemma qlist_eq (l1 l2 : list Qc) : map this l1 = map this l2 -> l1 = l2.
Proof.
  revert l2. induction l1 as [|a l1 IH]; intros [|b l2] H; cbn in H; try discriminate.
  - reflexivity.
  - injection H as Hab Hl. f_equal; [now apply Qc_decomp | now apply IH].
Qed.

Lemma result_qlist_eq (r : result (list Qc)) (l : list Qc) :
  match r with Ok l' => map this l' = map this l | Raise _ => False end -> r = Ok l.
Proof. destruct r as [l'|e]; [|contradiction]. intros H. f_equal. now apply qlist_eq. Qed.

Lemma nth_map_enumerate_from {A B : Type} (F : nat * A -> B) (d : B) (d' : A) (l : list A) :
  forall k j, (j < length l)%nat ->
  nth j (map F (enumerate_from k l)) d = F ((k + j)%nat, nth j l d').
Proof.
  induction l as [|a l IH]; intros k [|j] H; cbn in H; try lia.
  - cbn. now rewrite Nat.add_0_r.
  - cbn [enumerate_from map nth]. rewrite IH by lia. do 2 f_equal. lia.
Qed.

(** What the first conversion of [taylor_inverse] computes: the derivative
    of order [i] is taken to be [t[i]·(i−1)!]. *)
Lemma to_derivs_nth t i :
  (1 <= i < length t)%nat ->
  nth (i - 1) (to_derivs t) 0%Qc = (nth i t 0 * num (fac (i - 1)))%Qc.
Proof.
  intros Hi. unfold to_derivs, enumerate. destruct t as [|a t]; [cbn in Hi; lia|].
  cbn [tl length] in *. rewrite (nth_map_enumerate_from _ _ 0%Qc) by lia.
  cbn [Nat.add]. destruct i as [|i]; [lia|]. cbn [nth].
  replace (S i - 1)%nat with i by lia. reflexivity.
Qed.

(** What the second conversion computes: [G[0] = 0] and the coefficient of
    order [i + 1] is [g[i]/i!]. *)
Lemma to_coeffs_eq g :
  to_coeffs g = Ok (0%Qc :: map (fun ia => (snd ia / num (fac (fst ia)))%Qc) (enumerate g)).
Proof.
  unfold to_coeffs.
  rewrite (foldM_collect coeff_of (fun ia => (snd ia / num (fac (fst ia)))%Qc)); [reflexivity|].
  intros [i a] _. cbn [coeff_of fst snd]. apply truediv_ok, num_fac_nonzero.
Qed.

(** C6, on the code.  For [t = [0, 1, 1, 0]] the derivative sequence that
    [taylor_inverse] builds is [[1, 1, 0]], with [derivs[1] = t[2]·1!] and
    not [t[2]·2!]; for [g = [1, -1, 3]] the coefficient sequence it builds
    is [[0, 1, -1, 3/2]], with [G[2] = g[1]/1!] and not [g[1]/2!]. *)
Theorem conversions_scale_by_previous_factorial :
  to_derivs (qs [0; 1; 1; 0]) = qs [1; 1; 0] /\
  nth 1 (qs [1; 1; 0]) 0%Qc <> (nth 2 (qs [0; 1; 1; 0]%Z) 0 * num (fac 2))%Qc /\
  to_coeffs (qs [1; -1; 3]) = Ok [0; 1; num (-1); num 3 / num 2]%Qc /\
  nth 2 [0; 1; num (-1); num 3 / num 2]%Qc 0%Qc <> (nth 1 (qs [1; -1; 3]%Z) 0 / num (fac 2))%Qc.
Proof.
  split; [apply qlist_eq; vm_compute; reflexivity|].
  split; [intros H; apply (f_equal this) in H; vm_compute in H; discriminate|].
  split; [apply result_qlist_eq; vm_compute; reflexivity|].
  intros H; apply (f_equal this) in H; vm_compute in H; discriminate.
Qed.

(** C3, on the code.  For [t = [0, 1, 1]], the series [x + x^2] whose
    inverse starts [x - x^2], [taylor_inverse(t)] returns [[-2, 3, -1]]:
    composed with [t] it gives a series with constant term 2, where
    [[0, 1, -1]] gives the identity to the truncation order.  For the 15
    term series of the exponential the result evaluates at [x = 1], center
    0, to exactly 0. *)
Theorem taylor_inverse_composite :
  taylor_inverse (qs [0; 1; 1]) = Ok (qs [-2; 3; -1]) /\
  firstn 3 (series_compose (qs [0; 1; 1]) (qs [-2; 3; -1])) <> qs [0; 1; 0] /\
  firstn 3 (series_compose (qs [0; 1; 1]) (qs [0; 1; -1])) = qs [0; 1; 0] /\
  exists F, taylor_inverse (exp_series 15) = Ok F /\ length F = 15%nat /\
            taylor 1%Qc 0%Qc F = 0%Qc.
Proof.
  split; [apply result_qlist_eq; vm_compute; reflexivity|].
  split; [intros H; apply (f_equal (map this)) in H; vm_compute in H; discriminate|].
  split; [apply qlist_eq; vm_compute; reflexivity|].
  assert (H : match taylor_inverse (exp_series 15) with
              | Ok F => length F = 15%nat /\ this (taylor 1%Qc 0%Qc F) = 0%Q
              | Raise _ => False
              end) by (vm_compute; split; reflexivity).
  destruct (taylor_inverse (exp_series 15)) as [F|e]; [|contradiction].
  destruct H as [Hl Hv]. exists F. repeat split; [assumption|].
  now apply Qc_decomp.
Qed.

(** * Further properties of the code *)

(** ** [it_choose] *)

Lemma seq_from_zero a len : seq a len = map (Nat.add a) (seq 0 len).
Proof.
  induction a as [|a IH].
  - symmetry. rewrite <- (map_id (seq 0 len)) at 2. apply map_ext. reflexivity.
  - rewrite <- seq_shift, IH, map_map. reflexivity.
Qed.

Lemma range_of_nat a b : range (Z.of_nat a) (Z.of_nat b) = map Z.of_nat (seq a (b - a)).
Proof.
  unfold range. replace (Z.to_nat (Z.of_nat b - Z.of_nat a)) with (b - a)%nat by lia.
  rewrite (seq_from_zero a), map_map. apply map_ext. intros k. lia.
Qed.

Lemma it_choose_loop k : forall len a out,
  (k < a)%nat ->
  fold_left (it_choose_step (Z.of_nat k)) (map Z.of_nat (seq a len)) (out, choose (a - 1) k) =
  (out ++ map (fun j => choose j k) (seq (a - 1) len), choose (a + len - 1) k).
Proof.
  induction len as [|len IH]; intros a out Hk.
  - cbn [seq map fold_left]. now rewrite app_nil_r, Nat.add_0_r.
  - cbn [seq map fold_left it_choose_step].
    assert (Hdiv : choose (a - 1) k * Z.of_nat a / (Z.of_nat a - Z.of_nat k) = choose (S a - 1) k).
    { destruct a as [|m]; [lia|]. replace (S m - 1)%nat with m by lia.
      replace (S (S m) - 1)%nat with (S m) by lia.
      rewrite (Z.mul_comm (choose m k)), <- choose_step. apply Z.div_mul. lia. }
    rewrite Hdiv, IH by lia. f_equal.
    + rewrite <- app_assoc. f_equal. cbn [seq map app].
      replace (S (a - 1)) with (S a - 1)%nat by lia. reflexivity.
    + f_equal. lia.
Qed.

(** X1.  [it_choose(n, k)], for [k >= 0], yields the binomial coefficients
    [C(k,k), C(k+1,k), ..., C(n,k)]: every floor division of the loop is
    exact.  When [n <= k] it yields the single value [1]. *)
Theorem it_choose_binomials (n k : nat) :
  it_choose (Z.of_nat n) (Z.of_nat k) = map (fun j => choose j k) (seq k (n - k + 1)).
Proof.
  unfold it_choose.
  replace (Z.of_nat k + 1) with (Z.of_nat (k + 1)) by lia.
  replace (Z.of_nat n + 1) with (Z.of_nat (n + 1)) by lia.
  rewrite range_of_nat.
  pose proof (it_choose_loop k (n + 1 - (k + 1)) (k + 1) [] ltac:(lia)) as H.
  replace (k + 1 - 1)%nat with k in H by lia. rewrite choose_diag in H.
  rewrite H. cbn [app].
  replace (n - k + 1)%nat with (n + 1 - (k + 1) + 1)%nat by lia.
  rewrite seq_app, map_app. cbn [seq map]. do 3 f_equal. lia.
Qed.

(** ** [taylor] *)

Lemma taylor_cons x c a t : taylor x c (a :: t) = (a + (x - c) * taylor x c t)%Qc.
Proof.
  unfold taylor. cbn [rev]. rewrite fold_left_app. cbn [fold_left]. ring.
Qed.

Lemma qsum_scale {A : Type} (c : Qc) (F : A -> Qc) (l : list A) :
  (c * qsum (map F l))%Qc = qsum (map (fun a => c * F a)%Qc l).
Proof.
  induction l as [|a l IH]; cbn [map].
  - unfold qsum. cbn. ring.
  - rewrite !qsum_cons, <- IH. ring.
Qed.

Lemma qsum_add {A : Type} (F G : A -> Qc) (l : list A) :
  qsum (map (fun a => F a + G a)%Qc l) = (qsum (map F l) + qsum (map G l))%Qc.
Proof.
  induction l as [|a l IH]; cbn [map].
  - unfold qsum. cbn. ring.
  - rewrite !qsum_cons, IH. ring.
Qed.

Lemma qsum_zero {A : Type} (F : A -> Qc) (l : list A) :
  (forall a, In a l -> F a = 0%Qc) -> qsum (map F l) = 0%Qc.
Proof.
  induction l as [|a l IH]; intros H; [reflexivity|].
  cbn [map]. rewrite qsum_cons, (H a (or_introl eq_refl)), IH.
  - ring.
  - intros b Hb. apply H. now right.
Qed.

Lemma taylor_sum x c t :
  taylor x c t = qsum (map (fun i => nth i t 0 * (x - c) ^ i)%Qc (seq 0 (length t))).
Proof.
  induction t as [|a t IH]; [reflexivity|].
  rewrite taylor_cons, IH. cbn [length seq map]. rewrite qsum_cons.
  rewrite <- seq_shift, map_map, qsum_scale. cbn [nth Qcpower].
  f_equal; [ring|]. f_equal. apply map_ext. intros i. ring.
Qed.

Lemma taylor_center_cons c a t : taylor c c (a :: t) = a.
Proof. rewrite taylor_cons. ring. Qed.

(** X2.  [taylor(x, c, t)] is Horner's evaluation of [Σ t[i]·(x−c)^i]. *)
Theorem taylor_horner (x c : Qc) (t : list Qc) :
  taylor x c t = qsum (map (fun i => nth i t 0 * (x - c) ^ i)%Qc (seq 0 (length t))).
Proof. apply taylor_sum. Qed.

(** X3.  At its own center a series evaluates to its constant term, whatever the
    other coefficients are. *)
Theorem taylor_at_center (c a : Qc) (t : list Qc) : taylor c c (a :: t) = a.
Proof. apply taylor_center_cons. Qed.

(** ** [taylor_recenter] keeps the function *)

Lemma taylor_recenter_shift_eq x c t :
  taylor_recenter x c t = Ok (map (shift_coeff x c t) (seq 0 (length t))).
Proof.
  unfold taylor_recenter. rewrite (foldM_collect _ (shift_coeff x c t)); [reflexivity|].
  intros k Hk%in_seq. apply recenter_value_eq. lia.
Qed.



Lemma num_plus a b : num (a + b) = (num a + num b)%Qc.
Proof.
  unfold num, Qcplus. apply Q2Qc_eq_iff. cbn [this Q2Qc].
  rewrite !Qred_correct, inject_Z_plus. reflexivity.
Qed.

Lemma shift_coeff_cons_0 x c u t :
  shift_coeff x c (u :: t) 0 = (u + (x - c) * shift_coeff x c t 0)%Qc.
Proof.
  unfold shift_coeff. cbn [length]. rewrite !Nat.sub_0_r.
  cbn [seq map]. rewrite qsum_cons, <- seq_shift, map_map, qsum_scale.
  cbn [choose nth Nat.sub Qcpower]. change (num 1) with 1%Qc.
  f_equal; [ring|]. f_equal. apply map_ext. intros j.
  rewrite choose_0, Nat.sub_0_r. change (num 1) with 1%Qc. cbn [Qcpower]. ring.
Qed.

Lemma shift_coeff_cons_S x c u t k :
  shift_coeff x c (u :: t) (S k) =
  ((x - c) * shift_coeff x c t (S k) + shift_coeff x c t k)%Qc.
Proof.
  unfold shift_coeff. cbn [length Nat.sub].
  rewrite <- seq_shift, map_map.
  rewrite (map_ext _ (fun j => num (choose j (S k)) * nth j t 0 * (x - c) ^ (j - k)
                               + num (choose j k) * nth j t 0 * (x - c) ^ (j - k))%Qc).
  2:{ intros j. cbn [choose nth Nat.sub]. rewrite num_plus. ring. }
  rewrite qsum_add. f_equal.
  destruct (length t - k)%nat as [|m] eqn:E.
  - replace (length t - S k)%nat with 0%nat by lia. cbn [seq map]. unfold qsum. cbn. ring.
  - replace (length t - S k)%nat with m by lia. cbn [seq map].
    rewrite qsum_cons, choose_gt by lia. rewrite qsum_scale.
    change (num 0) with 0%Qc.
    rewrite (map_ext_in _ (fun j => (x - c) * (num (choose j (S k)) * nth j t 0
                                               * (x - c) ^ (j - S k)))%Qc).
    + ring.
    + intros j Hj%in_seq. replace (j - k)%nat with (S (j - S k)) by lia.
      cbn [Qcpower]. ring.
Qed.

Lemma shift_coeff_beyond x c t k : (length t <= k)%nat -> shift_coeff x c t k = 0%Qc.
Proof.
  intros H. unfold shift_coeff. replace (length t - k)%nat with 0%nat by lia. reflexivity.
Qed.

Lemma qsum_seq_first (F : nat -> Qc) n :
  qsum (map F (seq 0 (S n))) = (F 0%nat + qsum (map (fun k => F (S k)) (seq 0 n)))%Qc.
Proof. cbn [seq map]. now rewrite qsum_cons, <- seq_shift, map_map. Qed.

Lemma qsum_seq_last (F : nat -> Qc) n :
  qsum (map F (seq 0 (S n))) = (qsum (map F (seq 0 n)) + F n)%Qc.
Proof.
  rewrite seq_S, map_app, qsum_app. cbn [map Nat.add]. rewrite qsum_cons.
  change (qsum []) with 0%Qc. ring.
Qed.

Lemma shifted_polynomial x c a t :
  qsum (map (fun k => shift_coeff x c t k * a ^ k)%Qc (seq 0 (length t))) =
  taylor (a + x) c t.
Proof.
  induction t as [|u t IH]; [reflexivity|].
  rewrite taylor_cons, <- IH. cbn [length].
  rewrite qsum_seq_first, shift_coeff_cons_0.
  rewrite (map_ext _ (fun k => (x - c) * (shift_coeff x c t (S k) * a ^ S k)
                               + a * (shift_coeff x c t k * a ^ k))%Qc).
  2:{ intros k. rewrite shift_coeff_cons_S. cbn [Qcpower]. ring. }
  rewrite qsum_add, <- !qsum_scale.
  pose proof (qsum_seq_first (fun k => shift_coeff x c t k * a ^ k)%Qc (length t)) as H1.
  pose proof (qsum_seq_last (fun k => shift_coeff x c t k * a ^ k)%Qc (length t)) as H2.
  rewrite H1 in H2. rewrite (shift_coeff_beyond x c t (length t)) in H2 by lia.
  cbn [Qcpower] in *.
  assert (E : qsum (map (fun k => shift_coeff x c t (S k) * (a * a ^ k))%Qc (seq 0 (length t))) =
              (qsum (map (fun k => shift_coeff x c t k * a ^ k)%Qc (seq 0 (length t)))
               - shift_coeff x c t 0 * 1)%Qc).
  { transitivity (shift_coeff x c t 0 * 1 +
                  qsum (map (fun k => shift_coeff x c t (S k) * (a * a ^ k))
                            (seq 0 (length t))) - shift_coeff x c t 0 * 1)%Qc; [ring|].
    rewrite H2. ring. }
  rewrite E. ring.
Qed.

Lemma nth_map_seq (F : nat -> Qc) n k :
  (k < n)%nat -> nth k (map F (seq 0 n)) 0%Qc = F k.
Proof.
  intros H. rewrite (nth_indep _ 0%Qc (F 0%nat)) by (rewrite length_map, length_seq; lia).
  rewrite map_nth, seq_nth by lia. reflexivity.
Qed.

Lemma taylor_shifted x c t y :
  taylor y x (map (shift_coeff x c t) (seq 0 (length t))) = taylor y c t.
Proof.
  rewrite taylor_sum, length_map, length_seq.
  rewrite (map_ext_in _ (fun k => shift_coeff x c t k * (y - x) ^ k)%Qc).
  - rewrite shifted_polynomial. f_equal. ring.
  - intros k Hk%in_seq. rewrite nth_map_seq by lia. reflexivity.
Qed.

(** X4.  The series [taylor_recenter(x, c, t)] yields, read around [x], is the
    same function as [t] read around [c]: they evaluate alike at every
    point [y]. *)
Theorem taylor_recenter_same_function (x c : Qc) (t : list Qc) :
  exists out, taylor_recenter x c t = Ok out /\
              forall y, taylor y x out = taylor y c t.
Proof.
  exists (map (shift_coeff x c t) (seq 0 (length t))).
  split; [apply taylor_recenter_shift_eq|]. intros y. apply taylor_shifted.
Qed.

Lemma shift_coeff_same_center x t k :
  (k < length t)%nat -> shift_coeff x x t k = nth k t 0%Qc.
Proof.
  intros Hk. unfold shift_coeff.
  replace (length t - k)%nat with (S (length t - S k)) by lia.
  cbn [seq map]. rewrite qsum_cons, qsum_zero.
  - rewrite choose_diag, Nat.sub_diag. change (num 1) with 1%Qc. cbn [Qcpower]. ring.
  - intros j Hj%in_seq. replace (j - k)%nat with (S (j - S k)) by lia.
    cbn [Qcpower]. ring.
Qed.

(** X5.  Recentering a series on the center it already has returns it
    unchanged. *)
Theorem taylor_recenter_same_center (x : Qc) (t : list Qc) :
  taylor_recenter x x t = Ok t.
Proof.
  rewrite taylor_recenter_shift_eq. f_equal.
  apply (nth_ext _ _ 0%Qc 0%Qc).
  - now rewrite length_map, length_seq.
  - intros k Hk. rewrite length_map, length_seq in Hk.
    rewrite nth_map_seq by assumption. now apply shift_coeff_same_center.
Qed.

(** X6.  The first value [taylor_recenter(x, c, t)] yields, the constant term of
    the new series, is the value of the old series at the new center. *)
Theorem taylor_recenter_constant_term (x c u : Qc) (t : list Qc) :
  exists rest, taylor_recenter x c (u :: t) = Ok (taylor x c (u :: t) :: rest).
Proof.
  rewrite taylor_recenter_shift_eq.
  pose proof (taylor_shifted x c (u :: t) x) as Hval.
  cbn [length seq map] in *. rewrite taylor_center_cons in Hval. rewrite Hval.
  eexists. reflexivity.
Qed.

(** ** [_taylor_inverse]: outcomes, uniqueness, truncation *)

Lemma Qc_eq_bool_false p q : Qc_eq_bool p q = false -> p <> q.
Proof. unfold Qc_eq_bool. destruct (Qc_eq_dec p q); [discriminate|auto]. Qed.

(** The [n]th value of the composition, split into the term of the whole-[n]
    partition and the terms [_taylor_inverse] sums. *)
Lemma faadibruno_value_split f g m :
  faadibruno_value f g (S m) =
  (nth 0 f 0 * nth m g 0 +
   qsum (map (fdb_term f g (S m)) (tayparts (Z.of_nat (S m)))))%Qc.
Proof.
  unfold faadibruno_value. rewrite partcounts_tayparts by lia.
  unfold zeros. replace (Z.to_nat (Z.of_nat (S m) - 1)) with m by lia.
  cbn [map]. rewrite qsum_cons, fdb_term_whole, map_map. do 2 f_equal.
  apply map_ext. intros v. apply fdb_term_snoc_zero.
Qed.

Lemma inverse_ok f f0 :
  getitem f 0 = Ok f0 -> f0 <> 0%Qc ->
  exists g, _taylor_inverse f = Ok g /\ length g = length f /\ composes_to_identity f g.
Proof.
  intros Hf0 Hnz. pose proof (getitem_0_inv f f0 Hf0) as [Hn0 Hlen].
  assert (Hbase : composes_to_identity f [(1 / f0)%Qc]).
  { intros n Hn. cbn [length] in Hn. assert (n = 1%nat) as -> by lia.
    rewrite faadibruno_value_split. change (tayparts (Z.of_nat 1)) with (@nil (list nat)).
    rewrite Hn0. cbn [map nth Nat.eqb]. change (qsum []) with 0%Qc. field. assumption. }
  destruct (inverse_loop f f0 (length f - 1) [(1 / f0)%Qc] Hf0 Hnz) as (g & Hrun & Hl & Hid);
    [cbn [length]; lia | cbn [length]; lia | assumption |].
  cbn [length] in Hrun, Hl. exists g. split; [|split; [lia|assumption]].
  unfold _taylor_inverse. rewrite Hf0. cbn [bind].
  rewrite truediv_ok by assumption. cbn [bind]. exact Hrun.
Qed.

Lemma inverse_ok_inv f g :
  _taylor_inverse f = Ok g -> exists f0, getitem f 0 = Ok f0 /\ f0 <> 0%Qc.
Proof.
  unfold _taylor_inverse. destruct (getitem f 0) as [f0|e]; [|discriminate].
  cbn [bind]. unfold truediv. destruct (Qc_eq_bool f0 0) eqn:E; [discriminate|].
  intros _. exists f0. split; [reflexivity|]. now apply Qc_eq_bool_false.
Qed.

(** X8.  The three outcomes of [_taylor_inverse(f)]: [IndexError] on the empty
    list, [ZeroDivisionError] when [f[0] = 0], and otherwise a list of the
    length of [f]; no later step can fail. *)
Theorem taylor_inverse_derivs_outcome (f : list Qc) :
  match f with
  | [] => _taylor_inverse f = Raise IndexError
  | f0 :: _ =>
      if Qc_eq_bool f0 0 then _taylor_inverse f = Raise ZeroDivisionError
      else exists g, _taylor_inverse f = Ok g /\ length g = length f
  end.
Proof.
  destruct f as [|f0 f]; [reflexivity|].
  destruct (Qc_eq_bool f0 0) eqn:E.
  - apply Qc_eq_bool_correct in E. subst f0. unfold _taylor_inverse.
    change (getitem (0%Qc :: f) 0) with (Ok 0%Qc). cbn [bind]. now rewrite truediv_zero.
  - apply Qc_eq_bool_false in E.
    destruct (inverse_ok (f0 :: f) f0 eq_refl E) as (g & Hg & Hl & _).
    exists g. now split.
Qed.

Lemma composes_unique f g g' :
  nth 0 f 0%Qc <> 0%Qc -> length g = length g' ->
  composes_to_identity f g -> composes_to_identity f g' -> g = g'.
Proof.
  intros Hnz Hlen Hg Hg'.
  assert (H : forall m, (m <= length g)%nat ->
                        forall k, (k < m)%nat -> nth k g 0%Qc = nth k g' 0%Qc).
  { induction m as [|m IH]; intros Hm k Hk; [lia|].
    destruct (Nat.eq_dec k m) as [->|Hne]; [|apply IH; lia].
    specialize (IH ltac:(lia)).
    pose proof (Hg (S m) ltac:(lia)) as E1. pose proof (Hg' (S m) ltac:(lia)) as E2.
    rewrite <- E2 in E1. rewrite !faadibruno_value_split in E1.
    assert (Es : map (fdb_term f g (S m)) (tayparts (Z.of_nat (S m))) =
                 map (fdb_term f g' (S m)) (tayparts (Z.of_nat (S m)))).
    { destruct m as [|m]; [reflexivity|].
      apply map_ext_in. intros v Hv%tayparts_spec; [|lia]. destruct Hv as [Hl _].
      apply fdb_term_ext. intros i Hi. apply IH. lia. }
    rewrite Es in E1.
    set (s := qsum _) in E1. set (a := nth m g 0%Qc) in *. set (b := nth m g' 0%Qc) in *.
    set (f0 := nth 0 f 0%Qc) in *.
    assert (E3 : (f0 * a = f0 * b)%Qc).
    { transitivity (f0 * a + s - s)%Qc; [ring|]. rewrite E1. ring. }
    transitivity (f0 * a / f0)%Qc; [field; assumption|]. rewrite E3. field. assumption. }
  apply (nth_ext _ _ 0%Qc 0%Qc); [assumption|].
  intros k Hk. apply (H (length g)); lia.
Qed.

Lemma inverse_unique f f0 g :
  getitem f 0 = Ok f0 -> f0 <> 0%Qc -> length g = length f ->
  composes_to_identity f g -> _taylor_inverse f = Ok g.
Proof.
  intros Hf0 Hnz Hlen Hid.
  destruct (inverse_ok f f0 Hf0 Hnz) as (g' & Hg' & Hl' & Hid').
  rewrite Hg'. f_equal. apply (composes_unique f).
  - apply getitem_0_inv in Hf0 as [-> _]. assumption.
  - lia.
  - assumption.
  - assumption.
Qed.

Lemma identity_composes f g :
  length g = length f ->
  faadibruno f g = Ok (1%Qc :: repeat 0%Qc (length f - 1)) ->
  composes_to_identity f g.
Proof.
  intros Hlen Hrun. rewrite faadibruno_eq in Hrun by lia. injection Hrun as Hrun.
  intros n Hn. apply (f_equal (fun l => nth (n - 1) l 0%Qc)) in Hrun.
  rewrite (nth_indep _ 0%Qc (faadibruno_value f g 0)) in Hrun
    by (rewrite length_map, length_seq; lia).
  rewrite map_nth, seq_nth in Hrun by lia.
  replace (1 + (n - 1))%nat with n in Hrun by lia. rewrite Hrun.
  destruct n as [|[|n]]; [lia|reflexivity|].
  replace (S (S n) - 1)%nat with (S n) by lia. cbn [nth Nat.eqb]. apply nth_repeat.
Qed.

(** X9.  The inverse is unique: a sequence [g] of the length of [f] whose
    composition [faadibruno(f, g)] is [1, 0, ..., 0] is the one
    [_taylor_inverse(f)] returns. *)
Theorem taylor_inverse_derivs_unique (f g : list Qc) (f0 : Qc) :
  getitem f 0 = Ok f0 -> f0 <> 0%Qc -> length g = length f ->
  faadibruno f g = Ok (1%Qc :: repeat 0%Qc (length f - 1)) ->
  _taylor_inverse f = Ok g.
Proof.
  intros Hf0 Hnz Hlen Hrun. apply (inverse_unique f f0); try assumption.
  now apply identity_composes.
Qed.

Lemma taylor_inverse_derivs_unique_witness :
  let f := qs [2; 3; 5] in
  let g := [num 1 / num 2; num (-3) / num 8; num 17 / num 32]%Qc in
  getitem f 0 = Ok (num 2) /\ num 2 <> 0%Qc /\ length g = length f /\
  faadibruno f g = Ok (1%Qc :: repeat 0%Qc (length f - 1)) /\
  _taylor_inverse f = Ok g.
Proof.
  intros f g.
  assert (H1 : getitem f 0 = Ok (num 2)) by reflexivity.
  assert (H2 : num 2 <> 0%Qc) by discriminate.
  assert (H3 : length g = length f) by reflexivity.
  assert (H4 : faadibruno f g = Ok (1%Qc :: repeat 0%Qc (length f - 1)))
    by (apply result_qlist_eq; vm_compute; reflexivity).
  split; [exact H1|]. split; [exact H2|]. split; [exact H3|]. split; [exact H4|].
  exact (taylor_inverse_derivs_unique f g (num 2) H1 H2 H3 H4).
Defined.

Lemma firstn_seq m a len : firstn m (seq a len) = seq a (Nat.min m len).
Proof.
  revert a len. induction m as [|m IH]; intros a [|len]; cbn [firstn seq Nat.min]; try reflexivity.
  now rewrite IH.
Qed.

Lemma fdb_term_firstn f g m n p :
  is_partcount n p -> (1 <= n <= m)%nat ->
  fdb_term (firstn m f) (firstn m g) n p = fdb_term f g n p.
Proof.
  intros Hp Hn. pose proof (partcount_sum n p ltac:(lia) Hp) as Hs. destruct Hp as [Hl _].
  unfold fdb_term. f_equal; [f_equal|].
  - rewrite nth_firstn. destruct (Nat.ltb_spec (sum p - 1) m); [reflexivity|lia].
  - f_equal. apply map_ext_in. intros i Hi%in_seq. unfold fdb_factor.
    rewrite nth_firstn. destruct (Nat.ltb_spec i m); [reflexivity|lia].
Qed.

Lemma faadibruno_value_firstn f g m n :
  (1 <= n <= m)%nat ->
  faadibruno_value (firstn m f) (firstn m g) n = faadibruno_value f g n.
Proof.
  intros Hn. unfold faadibruno_value. f_equal. apply map_ext_in.
  intros p Hp%partcounts_spec; [|lia]. rewrite Nat2Z.id in Hp.
  now apply fdb_term_firstn.
Qed.

(** X10.  Truncation: the inverse of the first [m] derivatives is the first [m]
    entries of the inverse; the entry of order [n] depends on [f[0..n-1]]
    only. *)
Theorem taylor_inverse_derivs_truncation (f g : list Qc) (m : nat) :
  _taylor_inverse f = Ok g -> (1 <= m)%nat ->
  _taylor_inverse (firstn m f) = Ok (firstn m g).
Proof.
  intros Hg Hm. destruct (inverse_ok_inv f g Hg) as (f0 & Hf0 & Hnz).
  destruct (inverse_ok f f0 Hf0 Hnz) as (g' & Hg' & Hl & Hid).
  rewrite Hg in Hg'. injection Hg' as <-.
  apply (inverse_unique _ f0).
  - destruct f as [|a f]; [discriminate|]. destruct m as [|m]; [lia|]. exact Hf0.
  - assumption.
  - rewrite !length_firstn. lia.
  - intros n Hn. rewrite length_firstn in Hn.
    rewrite faadibruno_value_firstn by lia. apply Hid. lia.
Qed.

Lemma taylor_inverse_derivs_truncation_witness :
  _taylor_inverse (qs [2; 3; 5]) = Ok [num 1 / num 2; num (-3) / num 8; num 17 / num 32]%Qc /\
  (1 <= 2)%nat /\
  _taylor_inverse (qs [2; 3]) = Ok [num 1 / num 2; num (-3) / num 8]%Qc.
Proof.
  assert (H : _taylor_inverse (qs [2; 3; 5]) =
              Ok [num 1 / num 2; num (-3) / num 8; num 17 / num 32]%Qc)
    by (apply result_qlist_eq; vm_compute; reflexivity).
  split; [exact H|]. split; [lia|].
  exact (taylor_inverse_derivs_truncation _ _ 2 H ltac:(lia)).
Defined.

(** X11.  The first two entries of the inverse: [g[0] = 1/f[0]] and, when [f] has
    a second entry, [g[1] = -f[1]/f[0]^3]. *)
Theorem taylor_inverse_derivs_low_orders (f : list Qc) (f0 : Qc) :
  getitem f 0 = Ok f0 -> f0 <> 0%Qc ->
  exists g, _taylor_inverse f = Ok g /\
            nth 0 g 0%Qc = (1 / f0)%Qc /\
            ((2 <= length f)%nat -> nth 1 g 0%Qc = (- nth 1 f 0 / f0 ^ 3)%Qc).
Proof.
  intros Hf0 Hnz. destruct (inverse_ok f f0 Hf0 Hnz) as (g & Hg & Hl & Hid).
  pose proof (getitem_0_inv f f0 Hf0) as [Hn0 Hlen].
  exists g. split; [assumption|].
  assert (E0 : nth 0 g 0%Qc = (1 / f0)%Qc).
  { pose proof (Hid 1%nat ltac:(lia)) as E. rewrite faadibruno_value_split in E.
    change (tayparts (Z.of_nat 1)) with (@nil (list nat)) in E.
    rewrite Hn0 in E. cbn [map Nat.eqb] in E. change (qsum []) with 0%Qc in E.
    transitivity ((f0 * nth 0 g 0 + 0) / f0)%Qc; [field; assumption|]. now rewrite E. }
  split; [assumption|]. intros H2.
  pose proof (Hid 2%nat ltac:(lia)) as E. rewrite faadibruno_value_split in E.
  change (tayparts (Z.of_nat 2)) with [[2%nat]] in E.
  rewrite Hn0 in E. cbn [map Nat.eqb] in E. rewrite qsum_cons in E.
  change (qsum []) with 0%Qc in E. unfold fdb_term, fdb_factor in E.
  cbn [length seq map nth] in E. change (sum [2%nat] - 1)%nat with 1%nat in E.
  rewrite qprod_cons in E. change (qprod []) with 1%Qc in E.
  change (num (fac (0 + 1))) with 1%Qc in E. rewrite E0 in E.
  pose proof (num_fac_nonzero 2) as Htwo.
  set (two := num (fac 2)) in *. set (f1 := nth 1 f 0%Qc) in *. set (g1 := nth 1 g 0%Qc) in *.
  cbn [Qcpower] in *.
  transitivity ((f0 * g1 + (two * f1 * (1 / f0 * (1 / f0 * 1) / two / (1 * (1 * 1)) * 1) + 0)
                 - f1 / (f0 * f0)) / f0)%Qc.
  { field. repeat split; try assumption; discriminate. }
  rewrite E. field. assumption.
Qed.

Lemma taylor_inverse_derivs_low_orders_witness :
  getitem (qs [2; 3; 5]) 0 = Ok (num 2) /\ num 2 <> 0%Qc /\
  exists g, _taylor_inverse (qs [2; 3; 5]) = Ok g /\ nth 0 g 0%Qc = (1 / num 2)%Qc.
Proof.
  split; [reflexivity|]. split; [discriminate|].
  destruct (taylor_inverse_derivs_low_orders (qs [2; 3; 5]) (num 2) eq_refl ltac:(discriminate))
    as (g & H1 & H2 & _).
  exists g. split; [exact H1 | exact H2].
Defined.

(** ** [faadibruno]: lengths, truncation, low orders *)

Lemma foldM_app {A B : Type} (body : B -> A -> result B) (l1 l2 : list A) (acc : B) :
  foldM body (l1 ++ l2) acc = bind (foldM body l1 acc) (foldM body l2).
Proof.
  revert acc. induction l1 as [|a l1 IH]; intros acc; cbn [app foldM bind]; [reflexivity|].
  destruct (body acc a) as [b|e]; cbn [bind]; [apply IH|reflexivity].
Qed.

Lemma getitem_out_of_range {A : Type} (l : list A) (i : nat) :
  (length l <= i)%nat -> getitem l (Z.of_nat i) = Raise IndexError.
Proof.
  intros H. unfold getitem.
  destruct (Z.ltb_spec (Z.of_nat i) 0) as [?|_]; [lia|].
  destruct (Z.ltb_spec (Z.of_nat i) 0) as [?|_]; [lia|].
  rewrite Nat2Z.id. apply nth_error_None in H. now rewrite H.
Qed.

Lemma enumerate_from_app {A : Type} (l1 l2 : list A) k :
  enumerate_from k (l1 ++ l2) = enumerate_from k l1 ++ enumerate_from (k + length l1) l2.
Proof.
  revert k. induction l1 as [|a l1 IH]; intros k; cbn [app enumerate_from length].
  - now rewrite Nat.add_0_r.
  - rewrite IH. replace (k + S (length l1))%nat with (S k + length l1)%nat by lia.
    reflexivity.
Qed.

(** The term of the whole-[n] partition needs [g[n-1]]. *)
Lemma summand_whole_short f g :
  (1 <= length f)%nat ->
  summand f g (S (length g)) (repeat 0%nat (length g) ++ [1%nat]) = Raise IndexError.
Proof.
  intros Hf. unfold summand. rewrite sum_app, sum_repeat_zero.
  change (Z.of_nat (0 + sum [1%nat]) - 1) with (Z.of_nat 0).
  rewrite (getitem_nat f 0 0%Qc) by lia. cbn [bind].
  unfold enumerate. rewrite enumerate_from_app, foldM_app.
  rewrite (factor_loop g (repeat 0%nat (length g)) []) by (rewrite repeat_length; cbn; lia).
  cbn [bind length Nat.add enumerate_from foldM factor_step].
  rewrite repeat_length, getitem_out_of_range by lia. reflexivity.
Qed.

(** X13.  When [g] is shorter than [f], [faadibruno(f, g)] raises [IndexError]
    (after yielding [len(g)] values): order [len(g) + 1] reads
    [g[len(g)]]. *)
Theorem faadibruno_short_inner (f g : list Qc) :
  (length g < length f)%nat -> faadibruno f g = Raise IndexError.
Proof.
  intros Hlen. unfold faadibruno.
  replace (length f) with (length g + S (length f - length g - 1))%nat by lia.
  rewrite seq_app, foldM_app.
  rewrite (foldM_collect _ (faadibruno_value f g)).
  - cbn [bind seq foldM]. replace (1 + length g)%nat with (S (length g)) by lia.
    unfold summation. rewrite partcounts_tayparts by lia.
    unfold zeros. replace (Z.to_nat (Z.of_nat (S (length g)) - 1)) with (length g) by lia.
    cbn [foldM]. rewrite summand_whole_short by lia. reflexivity.
  - intros n Hn%in_seq. apply summation_eq. intros p Hp%partcounts_spec; [|lia].
    rewrite Nat2Z.id in Hp. pose proof (partcount_sum n p ltac:(lia) Hp). destruct Hp as [Hl _].
    apply summand_eq; lia.
Qed.

Lemma faadibruno_short_inner_witness :
  (length (qs [1; -1]%Z) < length (qs [1; 1; 1]%Z))%nat /\
  faadibruno (qs [1; 1; 1]) (qs [1; -1]) = Raise IndexError.
Proof.
  split; [cbn; lia|]. apply faadibruno_short_inner. cbn. lia.
Defined.

Lemma faadibruno_value_inner_firstn f g m n :
  (1 <= n <= m)%nat -> faadibruno_value f (firstn m g) n = faadibruno_value f g n.
Proof.
  intros Hn. unfold faadibruno_value. f_equal. apply map_ext_in.
  intros p Hp%partcounts_spec; [|lia]. rewrite Nat2Z.id in Hp. destruct Hp as [Hl _].
  apply fdb_term_ext. intros i Hi. rewrite nth_firstn.
  destruct (Nat.ltb_spec i m); [reflexivity|lia].
Qed.

(** X14.  When [g] is longer than [f], its entries beyond [len(f)] are never
    read. *)
Theorem faadibruno_long_inner (f g : list Qc) :
  (length f <= length g)%nat ->
  faadibruno f g = faadibruno f (firstn (length f) g).
Proof.
  intros Hlen. rewrite !faadibruno_eq by (rewrite ?length_firstn; lia).
  f_equal. apply map_ext_in. intros n Hn%in_seq.
  symmetry. apply faadibruno_value_inner_firstn. lia.
Qed.

Lemma faadibruno_long_inner_witness :
  (length (qs [2; 3]%Z) <= length (qs [1; 4; 7]%Z))%nat /\
  faadibruno (qs [2; 3]) (qs [1; 4; 7]) = faadibruno (qs [2; 3]) (qs [1; 4]).
Proof.
  split; [cbn; lia|]. apply (faadibruno_long_inner (qs [2; 3]) (qs [1; 4; 7])). cbn. lia.
Defined.

(** X15.  Truncation: the first [m] values of the composition are the composition
    of the first [m] entries of [f] and [g]. *)
Theorem faadibruno_truncation (f g : list Qc) (m : nat) :
  (length f <= length g)%nat ->
  exists out, faadibruno f g = Ok out /\
              faadibruno (firstn m f) (firstn m g) = Ok (firstn m out).
Proof.
  intros Hlen. exists (map (faadibruno_value f g) (seq 1 (length f))).
  split; [now apply faadibruno_eq|].
  rewrite faadibruno_eq by (rewrite !length_firstn; lia).
  rewrite firstn_map, firstn_seq, length_firstn. f_equal.
  apply map_ext_in. intros n Hn%in_seq. apply faadibruno_value_firstn. lia.
Qed.

Lemma faadibruno_truncation_witness :
  (length (qs [2; 3; 5]%Z) <= length (qs [1; 4; 7]%Z))%nat /\
  exists out, faadibruno (qs [2; 3; 5]) (qs [1; 4; 7]) = Ok out /\
              faadibruno (qs [2; 3]) (qs [1; 4]) = Ok (firstn 2 out).
Proof.
  split; [cbn; lia|].
  apply (faadibruno_truncation (qs [2; 3; 5]) (qs [1; 4; 7]) 2). cbn. lia.
Defined.

(** X16.  The first two values are the chain rule and its second-order form:
    [f[0]·g[0]] and [f[0]·g[1] + f[1]·g[0]^2]. *)
Theorem faadibruno_low_orders (f g : list Qc) :
  (2 <= length f)%nat -> (length f <= length g)%nat ->
  exists out, faadibruno f g = Ok out /\
              nth 0 out 0%Qc = (nth 0 f 0 * nth 0 g 0)%Qc /\
              nth 1 out 0%Qc = (nth 0 f 0 * nth 1 g 0 + nth 1 f 0 * nth 0 g 0 ^ 2)%Qc.
Proof.
  intros H2 Hlen. exists (map (faadibruno_value f g) (seq 1 (length f))).
  split; [now apply faadibruno_eq|].
  destruct (length f) as [|[|N]]; [lia|lia|]. cbn [seq map nth].
  rewrite !faadibruno_value_split.
  change (tayparts (Z.of_nat 1)) with (@nil (list nat)).
  change (tayparts (Z.of_nat 2)) with [[2%nat]].
  cbn [map]. rewrite qsum_cons. change (qsum []) with 0%Qc.
  split; [ring|].
  unfold fdb_term, fdb_factor. cbn [length seq map nth].
  change (sum [2%nat] - 1)%nat with 1%nat.
  rewrite qprod_cons. change (qprod []) with 1%Qc.
  change (num (fac (0 + 1))) with 1%Qc.
  pose proof (num_fac_nonzero 2) as Htwo. set (two := num (fac 2)) in *.
  cbn [Qcpower]. field. split; [assumption|discriminate].
Qed.

Lemma faadibruno_low_orders_witness :
  (2 <= length (qs [2; 3]%Z))%nat /\ (length (qs [2; 3]%Z) <= length (qs [1; 4]%Z))%nat /\
  exists out, faadibruno (qs [2; 3]) (qs [1; 4]) = Ok out /\
              nth 0 out 0%Qc = (nth 0 (qs [2; 3]%Z) 0 * nth 0 (qs [1; 4]%Z) 0)%Qc.
Proof.
  split; [cbn; lia|]. split; [cbn; lia|].
  destruct (faadibruno_low_orders (qs [2; 3]) (qs [1; 4])) as (out & H1 & H2 & _);
    [cbn; lia | cbn; lia |].
  exists out. split; [exact H1 | exact H2].
Defined.

(** ** [faadibruno]: identities and linearity *)

Lemma nth_map_seq_from (F : nat -> Qc) a n k :
  (k < n)%nat -> nth k (map F (seq a n)) 0%Qc = F (a + k)%nat.
Proof.
  intros H. rewrite (nth_indep _ 0%Qc (F 0%nat)) by (rewrite length_map, length_seq; lia).
  rewrite map_nth, seq_nth by lia. reflexivity.
Qed.

(** X17.  Composing the identity, whose derivatives are [1, 0, ..., 0], with [g]
    gives back [g] (its first [len(f)] entries). *)
Theorem faadibruno_identity_outer (g : list Qc) (k : nat) :
  (S k <= length g)%nat ->
  faadibruno (1%Qc :: repeat 0%Qc k) g = Ok (firstn (S k) g).
Proof.
  intros Hlen. rewrite faadibruno_eq by (cbn [length]; rewrite repeat_length; lia).
  f_equal. cbn [length]. rewrite repeat_length.
  apply (nth_ext _ _ 0%Qc 0%Qc).
  - rewrite length_map, length_seq, length_firstn. lia.
  - intros m Hm. rewrite length_map, length_seq in Hm.
    rewrite (nth_indep _ 0%Qc (faadibruno_value (1%Qc :: repeat 0%Qc k) g 0))
      by (rewrite length_map, length_seq; lia).
    rewrite map_nth, seq_nth by lia. cbn [Nat.add].
    rewrite nth_firstn. destruct (Nat.ltb_spec m (S k)) as [_|?]; [|lia].
    rewrite faadibruno_value_split, qsum_zero; [cbn [nth]; ring|].
    intros v Hv. destruct m as [|m]; [contradiction|].
    apply tayparts_sum in Hv; [|lia].
    unfold fdb_term. replace (sum v - 1)%nat with (S (sum v - 2)) by lia.
    cbn [nth]. rewrite nth_repeat. ring.
Qed.

Lemma faadibruno_identity_outer_witness :
  (2 <= length (qs [5; 7]%Z))%nat /\
  faadibruno (1%Qc :: repeat 0%Qc 1) (qs [5; 7]) = Ok (qs [5; 7]).
Proof.
  split; [cbn; lia|]. apply (faadibruno_identity_outer (qs [5; 7]) 1). cbn. lia.
Defined.

Lemma qsum_single {A : Type} (F : A -> Qc) (l : list A) (a : A) :
  NoDup l -> In a l -> (forall b, In b l -> b <> a -> F b = 0%Qc) ->
  qsum (map F l) = F a.
Proof.
  induction 1 as [|x l Hx Hl IH]; intros Ha Hz; [contradiction|].
  cbn [map]. rewrite qsum_cons. destruct Ha as [->|Ha].
  - rewrite qsum_zero; [ring|]. intros b Hb. apply Hz; [now right|].
    intros ->. contradiction.
  - rewrite IH; [|assumption|intros b Hb; apply Hz; now right].
    rewrite (Hz x); [ring|now left|]. intros ->. contradiction.
Qed.

Lemma qprod_zero {A : Type} (F : A -> Qc) (l : list A) (a : A) :
  In a l -> F a = 0%Qc -> qprod (map F l) = 0%Qc.
Proof.
  induction l as [|x l IH]; intros Ha Hz; [contradiction|].
  cbn [map]. rewrite qprod_cons. destruct Ha as [->|Ha].
  - rewrite Hz. ring.
  - rewrite IH by assumption. ring.
Qed.

Lemma zeros_or_entry (p : list nat) :
  p = repeat 0%nat (length p) \/ exists i, (i < length p)%nat /\ nth i p 0%nat <> 0%nat.
Proof.
  induction p as [|c p [IH|(i & Hi & Hn)]].
  - now left.
  - destruct c as [|c].
    + left. cbn [length repeat]. now rewrite <- IH.
    + right. exists 0%nat. cbn. split; [lia|discriminate].
  - right. exists (S i). cbn. split; [lia|assumption].
Qed.

Lemma weight_from_zeros k m : weight_from k (repeat 0%nat m) = 0%nat.
Proof.
  revert k. induction m as [|m IH]; intros k; [reflexivity|].
  cbn [repeat weight_from]. rewrite IH. lia.
Qed.

(** With the identity inside, the only vector with a non-zero term is
    [[n, 0, ..., 0]], [n] parts of size 1. *)
Lemma fdb_term_identity_inner f k n p :
  (1 <= n)%nat -> is_partcount n p -> p <> n :: repeat 0%nat (n - 1) ->
  fdb_term f (1%Qc :: repeat 0%Qc k) n p = 0%Qc.
Proof.
  intros Hn [Hl Hw] Hne. destruct p as [|c p]; [cbn in Hl; lia|].
  cbn [length] in Hl. destruct (zeros_or_entry p) as [Hz|(i & Hi & Hnz)].
  - exfalso. apply Hne. unfold weight in Hw. cbn [weight_from] in Hw.
    rewrite Hz, weight_from_zeros in Hw. rewrite Hz. f_equal; [lia|f_equal; lia].
  - unfold fdb_term. rewrite (qprod_zero _ _ (S i)); [ring| |].
    + apply in_seq. cbn [length]. lia.
    + unfold fdb_factor. cbn [nth]. rewrite nth_repeat.
      destruct (nth i p 0%nat) as [|c']; [congruence|].
      cbn [Qcpower]. unfold Qcdiv. ring.
Qed.

Lemma fdb_term_ones f k n :
  (1 <= n)%nat ->
  fdb_term f (1%Qc :: repeat 0%Qc k) n (n :: repeat 0%nat (n - 1)) = nth (n - 1) f 0%Qc.
Proof.
  intros Hn. unfold fdb_term. cbn [length]. rewrite repeat_length.
  rewrite sum_cons, sum_repeat_zero, Nat.add_0_r.
  cbn [seq map]. rewrite qprod_cons, qprod_ones.
  - unfold fdb_factor. cbn [nth Nat.add]. rewrite Qcpower_1.
    change (num (fac 1)) with 1%Qc. rewrite Qcpower_1.
    pose proof (num_fac_nonzero n). field. repeat split; try assumption; discriminate.
  - intros i Hi%in_seq. apply fdb_factor_zero.
    destruct i as [|i]; [lia|]. cbn [nth]. apply nth_repeat.
Qed.

(** X18.  Composing [f] with the identity, whose derivatives are [1, 0, ..., 0],
    gives back [f]. *)
Theorem faadibruno_identity_inner (f : list Qc) (k : nat) :
  (length f <= S k)%nat ->
  faadibruno f (1%Qc :: repeat 0%Qc k) = Ok f.
Proof.
  intros Hlen. rewrite faadibruno_eq by (cbn [length]; rewrite repeat_length; lia).
  f_equal. apply (nth_ext _ _ 0%Qc 0%Qc).
  - now rewrite length_map, length_seq.
  - intros m Hm. rewrite length_map, length_seq in Hm.
    rewrite (nth_indep _ 0%Qc (faadibruno_value f (1%Qc :: repeat 0%Qc k) 0))
      by (rewrite length_map, length_seq; lia).
    rewrite map_nth, seq_nth by lia. cbn [Nat.add].
    unfold faadibruno_value.
    rewrite (qsum_single _ _ (S m :: repeat 0%nat (S m - 1))).
    + rewrite fdb_term_ones by lia. f_equal. lia.
    + apply partcounts_NoDup. lia.
    + apply partcounts_spec; [lia|]. rewrite Nat2Z.id. split.
      * cbn [length]. rewrite repeat_length. lia.
      * unfold weight. cbn [weight_from]. rewrite weight_from_zeros. lia.
    + intros p Hp%partcounts_spec Hne; [|lia]. rewrite Nat2Z.id in Hp.
      apply fdb_term_identity_inner; [lia|assumption|assumption].
Qed.

Lemma faadibruno_identity_inner_witness :
  (length (qs [5; 7]%Z) <= 2)%nat /\
  faadibruno (qs [5; 7]) (1%Qc :: repeat 0%Qc 1) = Ok (qs [5; 7]).
Proof.
  split; [cbn; lia|]. apply (faadibruno_identity_inner (qs [5; 7]) 1). cbn. lia.
Defined.

Lemma nth_lincomb a b u v k :
  length u = length v -> (k < length u)%nat ->
  nth k (lincomb a b u v) 0%Qc = (a * nth k u 0 + b * nth k v 0)%Qc.
Proof.
  intros Hlen Hk. unfold lincomb.
  set (F := fun uv : Qc * Qc => (a * fst uv + b * snd uv)%Qc).
  rewrite (nth_indep _ 0%Qc (F (0%Qc, 0%Qc)))
    by (rewrite length_map, length_combine; lia).
  rewrite map_nth, combine_nth by assumption. reflexivity.
Qed.

Lemma length_lincomb a b u v : length u = length v -> length (lincomb a b u v) = length u.
Proof. intros H. unfold lincomb. rewrite length_map, length_combine. lia. Qed.

Lemma faadibruno_value_lincomb a b f1 f2 g n :
  length f1 = length f2 -> (1 <= n <= length f1)%nat ->
  faadibruno_value (lincomb a b f1 f2) g n =
  (a * faadibruno_value f1 g n + b * faadibruno_value f2 g n)%Qc.
Proof.
  intros Hlen Hn. unfold faadibruno_value.
  rewrite !qsum_scale, <- qsum_add. f_equal. apply map_ext_in.
  intros p Hp%partcounts_spec; [|lia]. rewrite Nat2Z.id in Hp.
  pose proof (partcount_sum n p ltac:(lia) Hp). unfold fdb_term.
  rewrite nth_lincomb by lia. ring.
Qed.

(** X19.  The composition is linear in the outer sequence. *)
Theorem faadibruno_linear_outer (a b : Qc) (f1 f2 g : list Qc) :
  length f1 = length f2 -> (length f1 <= length g)%nat ->
  exists o1 o2, faadibruno f1 g = Ok o1 /\ faadibruno f2 g = Ok o2 /\
                faadibruno (lincomb a b f1 f2) g = Ok (lincomb a b o1 o2).
Proof.
  intros Hlen Hg.
  exists (map (faadibruno_value f1 g) (seq 1 (length f1))),
         (map (faadibruno_value f2 g) (seq 1 (length f2))).
  split; [now apply faadibruno_eq|]. split; [apply faadibruno_eq; lia|].
  rewrite faadibruno_eq by (rewrite length_lincomb; lia). f_equal.
  rewrite length_lincomb by assumption.
  apply (nth_ext _ _ 0%Qc 0%Qc).
  - rewrite length_lincomb; rewrite !length_map, !length_seq; lia.
  - intros m Hm. rewrite length_map, length_seq in Hm.
    rewrite nth_lincomb by (rewrite !length_map, !length_seq; lia).
    rewrite <- Hlen. rewrite !nth_map_seq_from by lia.
    apply faadibruno_value_lincomb; lia.
Qed.

Lemma faadibruno_linear_outer_witness :
  length (qs [2; 3]) = length (qs [1; 1]) /\
  (length (qs [2; 3]%Z) <= length (qs [1; 4]%Z))%nat /\
  exists o1 o2, faadibruno (qs [2; 3]) (qs [1; 4]) = Ok o1 /\
                faadibruno (qs [1; 1]) (qs [1; 4]) = Ok o2 /\
                faadibruno (lincomb (num 2) (num 3) (qs [2; 3]) (qs [1; 1])) (qs [1; 4]) =
                Ok (lincomb (num 2) (num 3) o1 o2).
Proof.
  split; [reflexivity|]. split; [cbn; lia|].
  apply (faadibruno_linear_outer (num 2) (num 3) (qs [2; 3]) (qs [1; 1]) (qs [1; 4]));
    [reflexivity | cbn; lia].
Defined.

Lemma faadibruno_value_linear_outer c k g m :
  faadibruno_value (c :: repeat 0%Qc k) g (S m) = (c * nth m g 0)%Qc.
Proof.
  rewrite faadibruno_value_split, qsum_zero; [cbn [nth]; ring|].
  intros v Hv. destruct m as [|m]; [contradiction|].
  apply tayparts_sum in Hv; [|lia].
  unfold fdb_term. replace (sum v - 1)%nat with (S (sum v - 2)) by lia.
  cbn [nth]. rewrite nth_repeat. ring.
Qed.

(** X12.  A linear function [c·x] has the inverse [x/c], the identity is its own
    inverse: for [c <> 0], [_taylor_inverse([c, 0, ..., 0])] returns
    [[1/c, 0, ..., 0]]. *)
Theorem taylor_inverse_derivs_linear (c : Qc) (k : nat) :
  c <> 0%Qc ->
  _taylor_inverse (c :: repeat 0%Qc k) = Ok ((1 / c)%Qc :: repeat 0%Qc k).
Proof.
  intros Hc. apply (inverse_unique _ c); [reflexivity|assumption|reflexivity|].
  intros n Hn. destruct n as [|m]; [lia|].
  rewrite faadibruno_value_linear_outer. destruct m as [|m]; cbn [nth Nat.eqb].
  - field. assumption.
  - rewrite nth_repeat. ring.
Qed.

Lemma taylor_inverse_derivs_linear_witness :
  num 2 <> 0%Qc /\
  _taylor_inverse (num 2 :: repeat 0%Qc 3) = Ok ((1 / num 2)%Qc :: repeat 0%Qc 3).
Proof. split; [discriminate|]. apply taylor_inverse_derivs_linear. discriminate. Defined.

(** ** [taylor_inverse]: outcomes and the value at [t[1]] *)

Lemma length_enumerate_from {A : Type} (l : list A) k : length (enumerate_from k l) = length l.
Proof. revert k. induction l as [|a l IH]; intros k; cbn; [reflexivity|now rewrite IH]. Qed.

Lemma length_to_derivs t : length (to_derivs t) = (length t - 1)%nat.
Proof.
  unfold to_derivs, enumerate. rewrite length_map, length_enumerate_from.
  destruct t; cbn; lia.
Qed.

Lemma to_derivs_cons a t1 r :
  exists ds, to_derivs (a :: t1 :: r) = t1 :: ds /\ length ds = length r.
Proof.
  unfold to_derivs, enumerate. cbn [tl enumerate_from map].
  change (num (fac 0)) with 1%Qc. rewrite Qcmult_1_r.
  eexists. split; [reflexivity|]. now rewrite length_map, length_enumerate_from.
Qed.

(** X20.  The outcomes of [taylor_inverse(t)]: [IndexError] when [t] has fewer
    than two coefficients, [ZeroDivisionError] when the linear coefficient
    [t[1]] is 0, and otherwise a list of the length of [t]. *)
Theorem taylor_inverse_outcome (t : list Qc) :
  match t with
  | [] | [_] => taylor_inverse t = Raise IndexError
  | _ :: t1 :: _ =>
      if Qc_eq_bool t1 0 then taylor_inverse t = Raise ZeroDivisionError
      else exists F, taylor_inverse t = Ok F /\ length F = length t
  end.
Proof.
  destruct t as [|a [|t1 r]]; [reflexivity|reflexivity|].
  destruct (to_derivs_cons a t1 r) as (ds & Hds & Hlen).
  unfold taylor_inverse. rewrite Hds.
  destruct (Qc_eq_bool t1 0) eqn:E.
  - apply Qc_eq_bool_correct in E. subst t1. unfold _taylor_inverse.
    change (getitem (0%Qc :: ds) 0) with (Ok 0%Qc). cbn [bind].
    now rewrite truediv_zero.
  - apply Qc_eq_bool_false in E.
    destruct (inverse_ok (t1 :: ds) t1 eq_refl E) as (g & Hg & Hl & _).
    rewrite Hg. cbn [bind]. rewrite to_coeffs_eq. cbn [bind].
    change (getitem (t1 :: ds) 0) with (Ok t1). cbn [bind].
    rewrite taylor_recenter_shift_eq. eexists. split; [reflexivity|].
    rewrite length_map, length_seq. cbn [length] in *.
    rewrite length_map. unfold enumerate. rewrite length_enumerate_from. lia.
Qed.

(** X21.  Whatever [taylor_inverse(t)] returns evaluates to 0 at [x = t[1]] with
    center 0: the result is the polynomial [G] around [t[1]] rewritten
    around 0, and [G[0] = 0]. *)
Theorem taylor_inverse_value_at_linear_coefficient (t F : list Qc) :
  taylor_inverse t = Ok F -> taylor (nth 1 t 0%Qc) 0%Qc F = 0%Qc.
Proof.
  unfold taylor_inverse.
  destruct (_taylor_inverse (to_derivs t)) as [g|e]; [|discriminate]. cbn [bind].
  rewrite to_coeffs_eq. cbn [bind].
  destruct (getitem (to_derivs t) 0) as [d0|e] eqn:Hd; [|discriminate]. cbn [bind].
  remember (map (fun ia => (snd ia / num (fac (fst ia)))%Qc) (enumerate g)) as G' eqn:EG.
  remember (0%Qc :: G') as G eqn:EG0.
  rewrite taylor_recenter_shift_eq. intros H. injection H as <-. subst G.
  apply getitem_0_inv in Hd as [Hd Hlen]. rewrite length_to_derivs in Hlen.
  pose proof (to_derivs_nth t 1 ltac:(lia)) as H1.
  replace (1 - 1)%nat with 0%nat in H1 by lia. rewrite Hd in H1.
  change (num (fac 0)) with 1%Qc in H1. rewrite Qcmult_1_r in H1. rewrite <- H1.
  rewrite taylor_shifted. apply taylor_center_cons.
Qed.

Lemma taylor_inverse_value_at_linear_coefficient_witness :
  taylor_inverse (qs [0; 2; 3]) = Ok [num (-5) / num 2; num 2; num (-3) / num 8]%Qc /\
  taylor (num 2) 0%Qc [num (-5) / num 2; num 2; num (-3) / num 8]%Qc = 0%Qc.
Proof.
  assert (H : taylor_inverse (qs [0; 2; 3]) =
              Ok [num (-5) / num 2; num 2; num (-3) / num 8]%Qc)
    by (apply result_qlist_eq; vm_compute; reflexivity).
  split; [exact H|].
  exact (taylor_inverse_value_at_linear_coefficient (qs [0; 2; 3]) _ H).
Defined.

(** ** The generators from a minimum part *)

(** X22.  [partitions(n, I)] with [1 <= I <= n] yields, each once, exactly the
    partitions of [n] whose parts are all at least [I], and
    [partcounts(n, I)] yields their count vectors in the same order, all of
    length [n]. *)
Theorem partitions_from_minimum (n I : Z) :
  1 <= I <= n ->
  NoDup (partitions n I) /\
  (forall l, In l (partitions n I) <-> is_partition n l /\ Forall (fun x => I <= x) l) /\
  map expand (partcounts n I) = partitions n I /\
  NoDup (partcounts n I) /\
  (forall p, In p (partcounts n I) -> length p = Z.to_nat n).
Proof.
  intros HI.
  pose proof (partitions_NoDup (Z.to_nat n) n I ltac:(lia) ltac:(lia)) as Hnd.
  pose proof (expand_partcounts (Z.to_nat n) n I ltac:(lia) HI) as Hexp.
  split; [assumption|]. split; [|split; [assumption|split]].
  - intros l. split.
    + intros Hl. apply (partitions_sound (Z.to_nat n)) in Hl as (_ & Hall & Hs & Ht); [|lia|lia].
      repeat split; try assumption.
      * eapply Forall_impl; [|exact Hall]. cbn; intros; lia.
      * now apply StronglySorted_Sorted.
    + intros [(_ & Hs & Ht) Hall]. apply (partitions_complete (Z.to_nat n)); [lia|lia|].
      repeat split; try assumption.
      * intros ->. cbn in Ht. lia.
      * apply Sorted_StronglySorted; [exact Z.le_trans|assumption].
  - apply (NoDup_map_inv expand). now rewrite Hexp.
  - intros p Hp. apply (partcounts_length (Z.to_nat n) n I); [lia|lia|assumption].
Qed.

Lemma partitions_from_minimum_witness :
  1 <= 3 <= 7 /\ partitions 7 3 = [[7]; [3; 4]] /\ NoDup (partitions 7 3).
Proof.
  split; [lia|]. split; [reflexivity|].
  exact (proj1 (partitions_from_minimum 7 3 ltac:(lia))).
Defined.

(** X23.  When [I] exceeds [n // 2], and even when it exceeds [n],
    [partitions(n, I)] still yields the tuple [(n,)] and nothing else, and
    [partcounts(n, I)] the whole-[n] vector: the first [yield] does not
    look at [I]. *)
Theorem partitions_large_minimum (n I : Z) :
  1 <= I -> n < 2 * I ->
  partitions n I = [[n]] /\ partcounts n I = [zeros (n - 1) ++ [1%nat]].
Proof.
  intros HI Hn. rewrite partitions_eq, partcounts_eq by lia.
  halves n. rewrite range_nil by lia. split; reflexivity.
Qed.

Lemma partitions_large_minimum_witness :
  1 <= 5 /\ 3 < 2 * 5 /\ partitions 3 5 = [[3]] /\ partcounts 3 5 = [[0; 0; 1]%nat].
Proof.
  split; [lia|]. split; [lia|]. apply (partitions_large_minimum 3 5); lia.
Defined.

(** X24.  [tayparts(n)] yields [p(n) - 1] vectors: nothing for [n = 1]. *)
Theorem tayparts_count (n : Z) :
  1 <= n -> length (tayparts n) = (partition_number (Z.to_nat n) - 1)%nat.
Proof.
  intros Hn. rewrite <- partitions_length by assumption.
  rewrite <- (expand_partcounts (Z.to_nat n) n 1) by lia.
  rewrite length_map, partcounts_tayparts by assumption.
  cbn [length]. rewrite length_map. lia.
Qed.

Lemma tayparts_count_witness :
  1 <= 5 /\ length (tayparts 5) = 6%nat.
Proof. split; [lia|]. apply (tayparts_count 5). lia. Defined.

(** ** Recentering twice *)

Lemma fshift_ext d tau tau' n k :
  (forall j, (j < n)%nat -> tau j = tau' j) -> fshift d tau n k = fshift d tau' n k.
Proof.
  intros H. unfold fshift. f_equal. apply map_ext_in. intros j Hj%in_seq.
  rewrite H by lia. reflexivity.
Qed.

Lemma fshift_beyond d tau n k : (n <= k)%nat -> fshift d tau n k = 0%Qc.
Proof. intros H. unfold fshift. replace (n - k)%nat with 0%nat by lia. reflexivity. Qed.

Lemma fshift_linear e d alpha beta n k :
  fshift e (fun j => alpha j + d * beta j)%Qc n k =
  (fshift e alpha n k + d * fshift e beta n k)%Qc.
Proof.
  unfold fshift. rewrite qsum_scale, <- qsum_add. f_equal. apply map_ext.
  intros j. ring.
Qed.

Lemma fshift_last_zero e tau n k :
  tau n = 0%Qc -> fshift e tau (S n) k = fshift e tau n k.
Proof.
  intros Hz. unfold fshift. destruct (Nat.le_gt_cases k n) as [Hk|Hk].
  - replace (S n - k)%nat with (S (n - k)) by lia.
    rewrite seq_S, map_app, qsum_app. cbn [map]. rewrite qsum_cons.
    replace (k + (n - k))%nat with n by lia. rewrite Hz.
    change (qsum []) with 0%Qc. ring.
  - replace (S n - k)%nat with 0%nat by lia. replace (n - k)%nat with 0%nat by lia.
    reflexivity.
Qed.

Lemma fshift_cons d u tau n k :
  fshift d (fcons u tau) (S n) k = (fcons u (fshift d tau n) k + d * fshift d tau n k)%Qc.
Proof.
  destruct k as [|k]; unfold fshift; cbn [fcons].
  - rewrite !Nat.sub_0_r. cbn [seq map]. rewrite qsum_cons, <- seq_shift, map_map, qsum_scale.
    cbn [choose fcons Nat.sub Qcpower]. change (num 1) with 1%Qc.
    f_equal; [ring|]. f_equal. apply map_ext. intros j.
    rewrite choose_0, Nat.sub_0_r. change (num 1) with 1%Qc. ring.
  - fold (fshift d tau n k). cbn [Nat.sub]. rewrite <- seq_shift, map_map.
    rewrite (map_ext _ (fun j => num (choose j k) * tau j * d ^ (j - k)
                                 + num (choose j (S k)) * tau j * d ^ (j - k))%Qc).
    2:{ intros j. cbn [choose fcons Nat.sub]. rewrite num_plus. ring. }
    rewrite qsum_add. unfold fshift. f_equal.
    destruct (n - k)%nat as [|m] eqn:E.
    + replace (n - S k)%nat with 0%nat by lia. cbn [seq map]. unfold qsum. cbn. ring.
    + replace (n - S k)%nat with m by lia. cbn [seq map].
      rewrite qsum_cons, choose_gt by lia. rewrite qsum_scale.
      change (num 0) with 0%Qc.
      rewrite (map_ext_in _ (fun j => d * (num (choose j (S k)) * tau j
                                            * d ^ (j - S k)))%Qc).
      * ring.
      * intros j Hj%in_seq. replace (j - k)%nat with (S (j - S k)) by lia.
        cbn [Qcpower]. ring.
Qed.

(** Shifting by [d] and then by [e] is shifting by [d + e]. *)
Lemma fshift_compose d e : forall n tau k,
  fshift e (fshift d tau n) n k = fshift (d + e) tau n k.
Proof.
  induction n as [|n IH]; intros tau k; [reflexivity|].
  set (u := tau 0%nat). set (tau1 := fun j => tau (S j)).
  assert (Htau : forall j, tau j = fcons u tau1 j) by (intros [|j]; reflexivity).
  rewrite (fshift_ext (d + e) tau (fcons u tau1)) by (intros; apply Htau).
  rewrite (fshift_ext e (fshift d tau (S n))
             (fun j => fcons u (fshift d tau1 n) j + d * fshift d tau1 n j)%Qc).
  2:{ intros j _. rewrite (fshift_ext d tau (fcons u tau1)) by (intros; apply Htau).
      apply fshift_cons. }
  rewrite fshift_linear, !fshift_cons.
  rewrite fshift_last_zero by (apply fshift_beyond; lia).
  destruct k as [|k]; cbn [fcons]; rewrite !IH; ring.
Qed.

Lemma shift_coeff_fshift x c t k :
  shift_coeff x c t k = fshift (x - c) (fun j => nth j t 0%Qc) (length t) k.
Proof. reflexivity. Qed.

(** X7.  Composability: recentering from [x0] to [x1] and then from [x1] to [x2]
    is recentering from [x0] to [x2]. *)
Theorem taylor_recenter_compose (x0 x1 x2 : Qc) (t : list Qc) :
  exists s, taylor_recenter x1 x0 t = Ok s /\
            taylor_recenter x2 x1 s = taylor_recenter x2 x0 t.
Proof.
  exists (map (shift_coeff x1 x0 t) (seq 0 (length t))).
  split; [apply taylor_recenter_shift_eq|].
  rewrite !taylor_recenter_shift_eq, length_map, length_seq. f_equal.
  apply map_ext_in. intros k Hk%in_seq.
  rewrite !shift_coeff_fshift, length_map, length_seq.
  rewrite (fshift_ext _ _ (fshift (x1 - x0) (fun j => nth j t 0%Qc) (length t))).
  - rewrite fshift_compose. f_equal. ring.
  - intros j Hj. rewrite nth_map_seq by assumption. apply shift_coeff_fshift.
Qed.

(** ** The number of parts *)

Lemma length_expand_from k p : length (expand_from k p) = sum p.
Proof.
  revert k. induction p as [|c p IH]; intros k; [reflexivity|].
  cbn [expand_from]. rewrite length_app, repeat_length, IH, sum_cons. reflexivity.
Qed.

(** X25.  For a vector [p] that [partcounts(n)] yields, [sum(p)] is the number of
    parts of the partition it stands for, which [partitions(n)] yields, and
    lies between 1 and [n]: [f[sum(p)-1]] is a valid, non-negative index
    into any [f] of length at least [n]. *)
Theorem partcounts_number_of_parts (n : Z) (p : list nat) :
  1 <= n -> In p (partcounts n 1) ->
  In (expand p) (partitions n 1) /\
  sum p = length (expand p) /\
  (1 <= sum p <= Z.to_nat n)%nat.
Proof.
  intros Hn Hp. split; [|split].
  - rewrite <- (expand_partcounts (Z.to_nat n)) by lia. now apply in_map.
  - symmetry. apply length_expand_from.
  - apply partcounts_spec in Hp; [|assumption]. apply partcount_sum; [lia|assumption].
Qed.

Lemma partcounts_number_of_parts_witness :
  1 <= 5 /\ In [1; 2; 0; 0; 0]%nat (partcounts 5 1) /\
  sum [1; 2; 0; 0; 0]%nat = length (expand [1; 2; 0; 0; 0]%nat).
Proof.
  split; [lia|].
  assert (H : In [1; 2; 0; 0; 0]%nat (partcounts 5 1)) by (vm_compute; tauto).
  split; [exact H|].
  exact (proj1 (proj2 (partcounts_number_of_parts 5 _ ltac:(lia) H))).
Defined.
